(** * Pong, player versus computer: the simulation core of [pong_game.py]

    A shallow embedding of the per-frame logic of [src/pong_game.py]:
    the [pygame.Rect] geometry the sprites use, [Paddle.update],
    [Ball.reset], [Ball.update] and the body of the main loop (event
    processing, player input, computer tracking, paddle collisions, the
    off-screen check and the game-over check), followed by the properties
    of that code.

    Python integers are unbounded and are modelled by [Z]; the fields of a
    [pygame.Rect] are C ints, which the loop never leaves (see
    [Paddle_update_cint] and [reachable_updates_in_range]).  The calls to
    [random.choice([-1, 1])] read from an explicit source of draws that is
    part of the game state, so that a run is a function of the key states
    and of the draws.  Drawing, fonts and the clock do not touch the
    simulation state and are left out.  Sprites have the configured sizes
    ([PADDLE_WIDTH] x [PADDLE_HEIGHT] and [BALL_SIZE] x [BALL_SIZE]), which
    is what [load_sprite] produces when it falls back to a plain surface;
    [start] builds the first state from whatever image files there are.

    The second part embeds the session loop of
    [src/multi_agent_collab_o3_r1.py] over an explicit description of what
    the two services answer. *)

From Stdlib Require Import ZArith List Bool Lia String Ascii DecimalString.
Import ListNotations.
Open Scope Z_scope.

(** ** Constants and settings *)

Definition SCREEN_WIDTH : Z := 800.
Definition SCREEN_HEIGHT : Z := 600.
Definition PADDLE_WIDTH : Z := 20.
Definition PADDLE_HEIGHT : Z := 100.
Definition BALL_SIZE : Z := 20.
Definition PLAYER_SPEED : Z := 7.
Definition COMP_SPEED : Z := 6.
Definition STARTING_LIVES : Z := 3.

(** ** [pygame.Rect] *)

Module Rect.

Record t : Type := make { x : Z; y : Z; w : Z; h : Z }.

Definition left (r : t) : Z := x r.
Definition top (r : t) : Z := y r.
Definition right (r : t) : Z := x r + w r.
Definition bottom (r : t) : Z := y r + h r.
Definition centerx (r : t) : Z := x r + w r / 2.
Definition centery (r : t) : Z := y r + h r / 2.
Definition center (r : t) : Z * Z := (centerx r, centery r).

Definition set_x (v : Z) (r : t) : t := make v (y r) (w r) (h r).
Definition set_y (v : Z) (r : t) : t := make (x r) v (w r) (h r).
(** [rect.top = v] and [rect.bottom = v] move the rectangle, the size stays. *)
Definition set_top (v : Z) (r : t) : t := set_y v r.
Definition set_bottom (v : Z) (r : t) : t := set_y (v - h r) r.
(** [rect.center = (cx, cy)] *)
Definition set_center (c : Z * Z) (r : t) : t :=
  make (fst c - w r / 2) (snd c - h r / 2) (w r) (h r).

(** [a.colliderect(b)]: the interiors overlap; a rectangle with an empty
    side collides with nothing. *)
Definition colliderect (a b : t) : bool :=
  if (w a =? 0) || (h a =? 0) || (w b =? 0) || (h b =? 0) then false
  else (Z.min (x a) (x a + w a) <? Z.max (x b) (x b + w b))
    && (Z.min (y a) (y a + h a) <? Z.max (y b) (y b + h b))
    && (Z.min (x b) (x b + w b) <? Z.max (x a) (x a + w a))
    && (Z.min (y b) (y b + h b) <? Z.max (y a) (y a + h a)).

End Rect.

(** ** The random source

    [random.choice([-1, 1])] consumes one draw of the source and returns
    [-1] or [1]. *)

Record Random : Type := mkRandom { draws : nat -> bool; cursor : nat }.

Definition sign_of (b : bool) : Z := if b then 1 else -1.

(** Computations that read the random source. *)
Definition Rand (A : Type) : Type := Random -> A * Random.

Definition ret {A : Type} (a : A) : Rand A := fun r => (a, r).

Definition bind {A B : Type} (m : Rand A) (k : A -> Rand B) : Rand B :=
  fun r => let (a, r') := m r in k a r'.

Notation "x <- m ;; k" := (bind m (fun x => k))
  (at level 61, m at next level, right associativity).

Definition random_choice : Rand Z :=
  fun r => (sign_of (draws r (cursor r)), mkRandom (draws r) (S (cursor r))).

(** ** Sprites *)

Record Paddle : Type := mkPaddle { is_player : bool; prect : Rect.t }.

Record Ball : Type := mkBall { brect : Rect.t; speed_x : Z; speed_y : Z }.

(** [Paddle.__init__]: the sprite's rectangle has the size of its image and
    is placed at [(x, y)]. *)
Definition Paddle_init (x y : Z) (player : bool) : Paddle :=
  mkPaddle player
    (Rect.set_y y (Rect.set_x x (Rect.make 0 0 PADDLE_WIDTH PADDLE_HEIGHT))).

(** [Paddle.update(dy)] *)
Definition Paddle_update (dy : Z) (p : Paddle) : Paddle :=
  let r := Rect.set_y (Rect.y (prect p) + dy) (prect p) in
  let r := if Rect.top r <? 0 then Rect.set_top 0 r else r in
  let r := if Rect.bottom r >? SCREEN_HEIGHT
           then Rect.set_bottom SCREEN_HEIGHT r else r in
  mkPaddle (is_player p) r.

(** *** [Paddle.update] on the C ints of [pygame.Rect]

    The four fields of a [pygame.Rect] are C [int]s.  Assigning a value
    outside their range to [rect.y] raises [TypeError], and the sum that
    [rect.bottom] returns wraps around, as does the difference that
    assigning to [rect.bottom] stores.  [Paddle_update_cint] is
    [Paddle.update] with these effects: [None] stands for the [TypeError].
    [Paddle_update] above is the same method on mathematical integers; the
    two agree whenever no value leaves the range, which is the case for
    every call the main loop makes. *)

Definition INT_MIN : Z := -2147483648.
Definition INT_MAX : Z := 2147483647.

Definition int_range (z : Z) : Prop := INT_MIN <= z <= INT_MAX.

Definition in_int (z : Z) : bool := (INT_MIN <=? z) && (z <=? INT_MAX).

(** The value of a C [int] sum or difference whose exact result is [z]. *)
Definition wrap_int (z : Z) : Z := (z - INT_MIN) mod 4294967296 + INT_MIN.

(** A rectangle whose fields are C ints. *)
Definition rect_in_int (r : Rect.t) : Prop :=
  int_range (Rect.x r) /\ int_range (Rect.y r) /\
  int_range (Rect.w r) /\ int_range (Rect.h r).

Definition Paddle_update_cint (dy : Z) (p : Paddle) : option Paddle :=
  let v := Rect.y (prect p) + dy in
  if in_int v then
    let r := Rect.set_y v (prect p) in
    let r := if Rect.top r <? 0 then Rect.set_top 0 r else r in
    let r := if wrap_int (Rect.bottom r) >? SCREEN_HEIGHT
             then Rect.set_y (wrap_int (SCREEN_HEIGHT - Rect.h r)) r else r in
    Some (mkPaddle (is_player p) r)
  else None.

(** [Ball.reset()] *)
Definition Ball_reset (b : Ball) : Rand Ball :=
  let r := Rect.set_center (SCREEN_WIDTH / 2, SCREEN_HEIGHT / 2) (brect b) in
  dir_x <- random_choice ;;
  dir_y <- random_choice ;;
  ret (mkBall r (7 * dir_x) (7 * dir_y)).

(** [Ball.__init__()] *)
Definition Ball_init : Rand Ball :=
  Ball_reset (mkBall (Rect.make 0 0 BALL_SIZE BALL_SIZE) 0 0).

(** [Ball.update()] *)
Definition Ball_update (b : Ball) : Ball :=
  let r := Rect.set_x (Rect.x (brect b) + speed_x b) (brect b) in
  let r := Rect.set_y (Rect.y r + speed_y b) r in
  if (Rect.top r <=? 0) || (Rect.bottom r >=? SCREEN_HEIGHT)
  then mkBall r (speed_x b) (speed_y b * -1)
  else mkBall r (speed_x b) (speed_y b).

(** ** The game state and the main loop *)

Record Game : Type := mkGame {
  player_paddle : Paddle;
  comp_paddle : Paddle;
  ball : Ball;
  player_score : Z;
  player_lives : Z;
  comp_score : Z;
  comp_lives : Z;
  running : bool;
  rand : Random
}.

(** What one frame reads from pygame: whether a [QUIT] event is queued and
    the state of the two arrow keys. *)
Record Frame : Type := mkFrame { ev_quit : bool; key_up : bool; key_down : bool }.

Definition set_player_paddle (p : Paddle) (g : Game) : Game :=
  mkGame p (comp_paddle g) (ball g) (player_score g) (player_lives g)
         (comp_score g) (comp_lives g) (running g) (rand g).

Definition set_comp_paddle (p : Paddle) (g : Game) : Game :=
  mkGame (player_paddle g) p (ball g) (player_score g) (player_lives g)
         (comp_score g) (comp_lives g) (running g) (rand g).

Definition set_ball (b : Ball) (g : Game) : Game :=
  mkGame (player_paddle g) (comp_paddle g) b (player_score g) (player_lives g)
         (comp_score g) (comp_lives g) (running g) (rand g).

Definition set_running (v : bool) (g : Game) : Game :=
  mkGame (player_paddle g) (comp_paddle g) (ball g) (player_score g)
         (player_lives g) (comp_score g) (comp_lives g) v (rand g).

(** The state before the first frame: both paddles, the ball, the counters. *)
Definition initial (r : Random) : Game :=
  let pp := Paddle_init 30 (SCREEN_HEIGHT / 2 - PADDLE_HEIGHT / 2) true in
  let cp := Paddle_init (SCREEN_WIDTH - 30 - PADDLE_WIDTH)
                        (SCREEN_HEIGHT / 2 - PADDLE_HEIGHT / 2) false in
  let (b, r') := Ball_init r in
  mkGame pp cp b 0 STARTING_LIVES 0 STARTING_LIVES true r'.

(** Event processing: a [QUIT] event clears [running]. *)
Definition process_events (f : Frame) (g : Game) : Game :=
  if ev_quit f then set_running false g else g.

(** Player input: the displacement derived from the two keys. *)
Definition player_dy (f : Frame) : Z :=
  let dy := 0 in
  let dy := if key_up f then - PLAYER_SPEED else dy in
  let dy := if key_down f then PLAYER_SPEED else dy in
  dy.

Definition player_input (f : Frame) (g : Game) : Game :=
  set_player_paddle (Paddle_update (player_dy f) (player_paddle g)) g.

(** Computer paddle: the displacement it asks for, if any. *)
Definition comp_dy (b : Ball) (p : Paddle) : option Z :=
  if Rect.centery (brect b) <? Rect.centery (prect p) then Some (- COMP_SPEED)
  else if Rect.centery (brect b) >? Rect.centery (prect p) then Some COMP_SPEED
  else None.

Definition computer_ai (g : Game) : Game :=
  match comp_dy (ball g) (comp_paddle g) with
  | Some dy => set_comp_paddle (Paddle_update dy (comp_paddle g)) g
  | None => g
  end.

Definition update_ball (g : Game) : Game := set_ball (Ball_update (ball g)) g.

(** The response to a paddle hit: the horizontal speed is negated and the
    vertical speed gets one random unit. *)
Definition bounce (g : Game) : Game :=
  let (d, r') := random_choice (rand g) in
  mkGame (player_paddle g) (comp_paddle g)
         (mkBall (brect (ball g)) (speed_x (ball g) * -1) (speed_y (ball g) + d))
         (player_score g) (player_lives g) (comp_score g) (comp_lives g)
         (running g) r'.

Definition hits_player (g : Game) : bool :=
  Rect.colliderect (brect (ball g)) (prect (player_paddle g))
  && (speed_x (ball g) <? 0).

Definition hits_comp (g : Game) : bool :=
  Rect.colliderect (brect (ball g)) (prect (comp_paddle g))
  && (speed_x (ball g) >? 0).

Definition collide_player (g : Game) : Game :=
  if hits_player g then bounce g else g.

Definition collide_comp (g : Game) : Game :=
  if hits_comp g then bounce g else g.

Definition paddle_collisions (g : Game) : Game :=
  collide_comp (collide_player g).

(** The ball left the screen on the left, respectively on the right. *)
Definition out_left (g : Game) : bool := Rect.right (brect (ball g)) <? 0.
Definition out_right (g : Game) : bool := Rect.left (brect (ball g)) >? SCREEN_WIDTH.

Definition reset_ball (g : Game) : Game :=
  let (b, r') := Ball_reset (ball g) (rand g) in
  mkGame (player_paddle g) (comp_paddle g) b (player_score g) (player_lives g)
         (comp_score g) (comp_lives g) (running g) r'.

Definition score_computer (g : Game) : Game :=
  mkGame (player_paddle g) (comp_paddle g) (ball g) (player_score g)
         (player_lives g - 1) (comp_score g + 1) (comp_lives g)
         (running g) (rand g).

Definition score_player (g : Game) : Game :=
  mkGame (player_paddle g) (comp_paddle g) (ball g) (player_score g + 1)
         (player_lives g) (comp_score g) (comp_lives g - 1)
         (running g) (rand g).

Definition check_left (g : Game) : Game :=
  if out_left g then reset_ball (score_computer g) else g.

Definition check_right (g : Game) : Game :=
  if out_right g then reset_ball (score_player g) else g.

Definition offscreen_check (g : Game) : Game := check_right (check_left g).

Definition lives_out (g : Game) : bool :=
  (player_lives g <=? 0) || (comp_lives g <=? 0).

Definition game_over_check (g : Game) : Game :=
  if lives_out g then set_running false g else g.

(** The state in which the paddle collision check of a frame finds the
    game, and the one in which the off-screen check finds it. *)
Definition before_collisions (f : Frame) (g : Game) : Game :=
  update_ball (computer_ai (player_input f (process_events f g))).

Definition before_offscreen (f : Frame) (g : Game) : Game :=
  paddle_collisions (before_collisions f g).

(** One pass through the body of [while running]. *)
Definition loop_body (f : Frame) (g : Game) : Game :=
  game_over_check (offscreen_check (before_offscreen f g)).

(** The loop test and one pass. *)
Definition loop_iter (f : Frame) (g : Game) : Game :=
  if running g then loop_body f g else g.

(** The loop over the frames of a session. *)
Fixpoint run (fs : list Frame) (g : Game) : Game :=
  match fs with
  | [] => g
  | f :: fs' => run fs' (loop_iter f g)
  end.

(** The states the program can be in at the loop test. *)
Inductive reachable : Game -> Prop :=
| reach_initial : forall r, reachable (initial r)
| reach_iter : forall f g, reachable g -> reachable (loop_iter f g).

(** The sizes and the horizontal placement of the three sprites. *)
Definition layout (g : Game) : Prop :=
  Rect.w (brect (ball g)) = BALL_SIZE /\
  Rect.h (brect (ball g)) = BALL_SIZE /\
  Rect.x (prect (player_paddle g)) = 30 /\
  Rect.w (prect (player_paddle g)) = PADDLE_WIDTH /\
  Rect.h (prect (player_paddle g)) = PADDLE_HEIGHT /\
  Rect.x (prect (comp_paddle g)) = SCREEN_WIDTH - 30 - PADDLE_WIDTH /\
  Rect.w (prect (comp_paddle g)) = PADDLE_WIDTH /\
  Rect.h (prect (comp_paddle g)) = PADDLE_HEIGHT.

(** The four counters of a state. *)
Definition counters (g : Game) : Z * Z * Z * Z :=
  (player_score g, player_lives g, comp_score g, comp_lives g).

(** A rectangle that lies between the top and the bottom of the screen. *)
Definition in_field (r : Rect.t) : Prop :=
  0 <= Rect.top r /\ Rect.bottom r <= SCREEN_HEIGHT.

(** Sample data for the examples: a source whose draws are all [-1], a frame
    with no key held, one with the up key held, one carrying a [QUIT]. *)
Definition all_minus : Random := mkRandom (fun _ => false) 0.
Definition idle : Frame := mkFrame false false false.
Definition hold_up : Frame := mkFrame false true false.
Definition hold_both : Frame := mkFrame false true true.
Definition quit_now : Frame := mkFrame true false false.

(** A ball about to leave on the right, as in the scenario of the
    specification: at [(795, 300)] and moving right. *)
Definition leaving_right : Game :=
  set_ball (mkBall (Rect.make 795 300 BALL_SIZE BALL_SIZE) 7 0) (initial all_minus).

(** A ball overlapping both of two very wide paddles, for the order of the
    checks. *)
Definition wide_paddles : Game :=
  mkGame (mkPaddle true (Rect.make 30 250 400 100))
         (mkPaddle false (Rect.make 380 250 400 100))
         (mkBall (Rect.make 390 290 BALL_SIZE BALL_SIZE) (-7) 7)
         0 STARTING_LIVES 0 STARTING_LIVES true all_minus.

(** The message of the screen shown once the loop has ended. *)
Definition over_text (g : Game) : string :=
  if player_lives g <=? 0 then "Game Over! You lost!"%string
  else "Congratulations! You won!"%string.

(** The integer [z] as an f-string prints it. *)
Definition py_int_str (z : Z) : string := NilEmpty.string_of_int (Z.to_int z).

(** The text of the HUD line drawn in every frame. *)
Definition hud_text (g : Game) : string :=
  ("Player: " ++ py_int_str (player_score g)
   ++ "   Lives: " ++ py_int_str (player_lives g)
   ++ "    |    Computer: " ++ py_int_str (comp_score g)
   ++ "   Lives: " ++ py_int_str (comp_lives g))%string.


(** ** Sprites from image files

    [load_sprite] tries to load and convert an image and falls back to a
    plain surface of the given size and colour when either step raises.
    What the file system holds for a sprite is the result of the two steps:
    nothing when one of them raises, the converted image otherwise.  Of a
    surface only the size matters to the simulation; the paint is kept to
    tell a picture from a fallback. *)

Definition Color : Type := (Z * Z * Z)%type.
Definition WHITE : Color := (255, 255, 255).
Definition BLUE : Color := (50, 100, 255).
Definition RED : Color := (255, 50, 50).

Inductive Paint : Type :=
| Picture : Paint
| Solid : Color -> Paint.

Record Surface : Type := mkSurface { surf_w : Z; surf_h : Z; paint : Paint }.

(** [surface.get_rect()] *)
Definition get_rect (s : Surface) : Rect.t := Rect.make 0 0 (surf_w s) (surf_h s).

Definition load_sprite (loaded : option Surface) (fallback_size : Z * Z)
    (fill_color : Color) : Surface :=
  match loaded with
  | Some image => image
  | None => mkSurface (fst fallback_size) (snd fallback_size) (Solid fill_color)
  end.

(** The three image files as the program finds them. *)
Record Assets : Type := mkAssets {
  player_png : option Surface;
  computer_png : option Surface;
  ball_png : option Surface
}.

Definition no_assets : Assets := mkAssets None None None.

(** [Paddle(x, y, is_player)] with the image files of [a]. *)
Definition Paddle_new (a : Assets) (x y : Z) (player : bool) : Paddle :=
  let image :=
    if player
    then load_sprite (player_png a) (PADDLE_WIDTH, PADDLE_HEIGHT) BLUE
    else load_sprite (computer_png a) (PADDLE_WIDTH, PADDLE_HEIGHT) RED in
  mkPaddle player (Rect.set_y y (Rect.set_x x (get_rect image))).

(** [Ball()] with the image files of [a]. *)
Definition Ball_new (a : Assets) : Rand Ball :=
  let image := load_sprite (ball_png a) (BALL_SIZE, BALL_SIZE) WHITE in
  Ball_reset (mkBall (get_rect image) 0 0).

(** The state before the first frame, with the image files of [a]. *)
Definition start (a : Assets) (r : Random) : Game :=
  let pp := Paddle_new a 30 (SCREEN_HEIGHT / 2 - PADDLE_HEIGHT / 2) true in
  let cp := Paddle_new a (SCREEN_WIDTH - 30 - PADDLE_WIDTH)
                       (SCREEN_HEIGHT / 2 - PADDLE_HEIGHT / 2) false in
  let (b, r') := Ball_new a r in
  mkGame pp cp b 0 STARTING_LIVES 0 STARTING_LIVES true r'.

(** * The two-agent session of [multi_agent_collab_o3_r1.py]

    The script alternates a retrieval call (DeepSeek R1 behind a local
    Ollama endpoint) and a reasoning call (an OpenAI chat model) and keeps a
    conversation history.  Both services are outside the program: what they
    answer in each round is given by a [World].  The progress bars, the
    pauses and the printing do not touch the history and are left out. *)

(** A Python value the script formats into text: a string, or anything else
    with the text [str()] gives for it. *)
Inductive PyVal : Type :=
| VStr : string -> PyVal
| VOther : string -> PyVal.

Definition py_str (v : PyVal) : string :=
  match v with
  | VStr s => s
  | VOther shown => shown
  end.

(** What happens inside the [try] of [deepseek_r1_search]: one of
    [requests.post], [raise_for_status], [response.json()] and [data.get]
    raises an exception with the given text, or a JSON object arrives. *)
Inductive Reply : Type :=
| Raised : string -> Reply
| Json : list (string * PyVal) -> Reply.

(** [data.get(key, default)] on a dictionary given by its items. *)
Fixpoint dict_get (key : string) (data : list (string * PyVal))
    (default : PyVal) : PyVal :=
  match data with
  | [] => default
  | (k, v) :: rest =>
      if String.eqb k key then v else dict_get key rest default
  end.

(** [deepseek_r1_search(query)], given what the endpoint does. *)
Definition deepseek_r1_search (reply : Reply) (query : string) : PyVal :=
  match reply with
  | Json data =>
      dict_get "response" data
        (VStr ("Default response for query '" ++ query ++ "'")%string)
  | Raised e => VStr ("Error in DeepSeek R1 call: " ++ e)%string
  end.

(** The message the reasoning chain returns: the text [str()] gives for it
    and its [content], which is a string or something without [strip]. *)
Record Message : Type := mkMessage { shown : string; content : option string }.

(** [reasoning_chain.invoke] raises or returns a message. *)
Inductive Invoke : Type :=
| InvokeRaised : string -> Invoke
| Returned : Message -> Invoke.

(** The services: the endpoint's reply to the query of a round, the
    chain's answer to the prompt of a round, and [str.strip]. *)
Record World : Type := mkWorld {
  reply : nat -> string -> Reply;
  invoke : nat -> string -> Invoke;
  strip : string -> string
}.

Definition nl : string := String (ascii_of_nat 10) EmptyString.

(** [reasoning_prompt] filled with the history and the search result. *)
Definition reasoning_prompt (conversation_history search_result : string)
    : string :=
  (nl ++ "You are a collaborative reasoning agent. You will receive search results from DeepSeek R1 and the current state of the conversation."
   ++ nl ++ "Your task is to analyze the provided information and suggest the next steps towards solving the problem."
   ++ nl ++ nl ++ "Current conversation/context:" ++ nl ++ conversation_history
   ++ nl ++ nl ++ "DeepSeek result:" ++ nl ++ search_result
   ++ nl ++ nl ++ "Based on the above, provide a next step, a plan, or a summative insight."
   ++ nl ++ "Response:" ++ nl)%string.

(** The number [n] as an f-string prints it. *)
Definition dec (n : nat) : string := NilEmpty.string_of_uint (Nat.to_uint n).

(** The variables of [collaborative_session]. *)
Record Session : Type := mkSession {
  conversation_history : string;
  current_query : string
}.

(** The text one round adds to the history. *)
Definition round_text (i : nat) (query result reasoning : string) : string :=
  (nl ++ "Round " ++ dec (i + 1) ++ ":" ++ nl
   ++ "Search query: " ++ query ++ nl
   ++ "DeepSeek result: " ++ result ++ nl
   ++ "Reasoning: " ++ reasoning ++ nl)%string.

(** The body of the [for] loop for round [i]: the new variables, or the
    text of the exception that ends the session. *)
Definition session_round (w : World) (i : nat) (s : Session)
    : string + Session :=
  let retrieval_result :=
    deepseek_r1_search (reply w i (current_query s)) (current_query s) in
  match invoke w i (reasoning_prompt (conversation_history s)
                                     (py_str retrieval_result)) with
  | InvokeRaised e => inl e
  | Returned reasoning_output =>
      let history :=
        (conversation_history s
         ++ round_text i (current_query s) (py_str retrieval_result)
                       (shown reasoning_output))%string in
      match content reasoning_output with
      | Some text => inr (mkSession history (strip w text))
      | None => inl "'list' object has no attribute 'strip'"%string
      end
  end.

(** Rounds [i], [i + 1], ..., [i + n - 1]. *)
Fixpoint session_rounds (w : World) (n i : nat) (s : Session)
    : string + Session :=
  match n with
  | O => inr s
  | S n' =>
      match session_round w i s with
      | inl e => inl e
      | inr s' => session_rounds w n' (S i) s'
      end
  end.

(** [collaborative_session(initial_query, rounds)]: the final history, or
    the text of the exception that ended the session. *)
Definition collaborative_session (w : World) (initial_query : string)
    (rounds : Z) : string + string :=
  let s := mkSession ("Initial query: " ++ initial_query)%string initial_query in
  match session_rounds w (Z.to_nat rounds) 0 s with
  | inl e => inl e
  | inr s' => inr (conversation_history s')
  end.

(** A world in which the endpoint is down (every retrieval raises) and the
    chain always answers. *)
Definition endpoint_down : World :=
  mkWorld (fun _ _ => Raised "connection refused")
          (fun _ _ => Returned (mkMessage "content='ok'" (Some " ok "%string)))
          (fun s => s).

(** A world in which the chain fails in the second round. *)
Definition chain_fails_second : World :=
  mkWorld (fun _ _ => Json [("response"%string, VStr "found")])
          (fun i _ => match i with
                      | 1%nat => InvokeRaised "rate limit"
                      | _ => Returned (mkMessage "content='next'" (Some "next"%string))
                      end)
          (fun s => s).

(** * Properties *)

(** ** Unfolding tactics *)

Ltac unfold_rect :=
  unfold Rect.set_top, Rect.set_bottom, Rect.set_center, Rect.set_x,
    Rect.set_y, Rect.center, Rect.centerx, Rect.centery, Rect.top,
    Rect.bottom, Rect.left, Rect.right in *; cbn [Rect.x Rect.y Rect.w Rect.h fst snd] in *.

Ltac unfold_consts :=
  unfold SCREEN_WIDTH, SCREEN_HEIGHT, PADDLE_WIDTH, PADDLE_HEIGHT, BALL_SIZE,
    PLAYER_SPEED, COMP_SPEED, STARTING_LIVES in *.

(** Split on the boolean test at the head of an [if]. *)
Ltac split_if :=
  match goal with
  | |- context [if ?c then _ else _] => destruct c eqn:?
  end.

(** ** Paddles *)

Lemma Paddle_update_size (dy : Z) (p : Paddle) :
  Rect.x (prect (Paddle_update dy p)) = Rect.x (prect p) /\
  Rect.w (prect (Paddle_update dy p)) = Rect.w (prect p) /\
  Rect.h (prect (Paddle_update dy p)) = Rect.h (prect p).
Proof.
  unfold Paddle_update; cbn [prect].
  repeat split_if; unfold_rect; auto.
Qed.

Lemma Paddle_update_y (dy : Z) (p : Paddle) :
  in_field (prect p) ->
  Rect.y (prect (Paddle_update dy p)) =
    Z.min (SCREEN_HEIGHT - Rect.h (prect p))
          (Z.max 0 (Rect.y (prect p) + dy)).
Proof.
  unfold in_field, Paddle_update; cbn [prect]; intros [Ht Hb].
  repeat split_if; unfold_rect; unfold_consts; lia.
Qed.

(** On mathematical integers, a paddle that is not taller than the screen
    lies, after the update with any displacement, between the top and the
    bottom of the screen. *)
Lemma Paddle_update_in_field (dy : Z) (p : Paddle) :
  Rect.h (prect p) <= SCREEN_HEIGHT ->
  0 <= Rect.top (prect (Paddle_update dy p)) /\
  Rect.bottom (prect (Paddle_update dy p)) <= SCREEN_HEIGHT.
Proof.
  unfold Paddle_update; cbn [prect]; intros Hh.
  repeat split_if; unfold_rect; unfold_consts; lia.
Qed.


(** ** What the stages of a frame leave alone *)

Lemma before_collisions_ball (f : Frame) (g : Game) :
  ball (before_collisions f g) = Ball_update (ball g).
Proof.
  unfold before_collisions, update_ball, computer_ai, player_input,
    process_events.
  destruct (ev_quit f); cbn [set_running set_player_paddle ball comp_paddle];
    destruct (comp_dy _ _); reflexivity.
Qed.

Lemma before_collisions_player_paddle (f : Frame) (g : Game) :
  player_paddle (before_collisions f g) =
    Paddle_update (player_dy f) (player_paddle g).
Proof.
  unfold before_collisions, update_ball, computer_ai, player_input,
    process_events.
  destruct (ev_quit f); cbn [set_running set_player_paddle ball comp_paddle];
    destruct (comp_dy _ _); reflexivity.
Qed.

Lemma before_collisions_comp_paddle (f : Frame) (g : Game) :
  comp_paddle (before_collisions f g) = comp_paddle (computer_ai g).
Proof.
  unfold before_collisions, update_ball, computer_ai, player_input,
    process_events.
  destruct (ev_quit f); cbn [set_running set_player_paddle ball comp_paddle];
    destruct (comp_dy _ _); reflexivity.
Qed.

Lemma bounce_paddles (g : Game) :
  player_paddle (bounce g) = player_paddle g /\
  comp_paddle (bounce g) = comp_paddle g /\
  brect (ball (bounce g)) = brect (ball g).
Proof. unfold bounce; cbn; auto. Qed.

Lemma paddle_collisions_paddles (g : Game) :
  player_paddle (paddle_collisions g) = player_paddle g /\
  comp_paddle (paddle_collisions g) = comp_paddle g /\
  brect (ball (paddle_collisions g)) = brect (ball g).
Proof.
  unfold paddle_collisions, collide_comp, collide_player.
  destruct (hits_player g); [ destruct (hits_comp (bounce g)) | destruct (hits_comp g) ];
    repeat rewrite ?(proj1 (bounce_paddles _)),
      ?(proj1 (proj2 (bounce_paddles _))), ?(proj2 (proj2 (bounce_paddles _)));
    auto.
Qed.

Lemma offscreen_check_paddles (g : Game) :
  player_paddle (offscreen_check g) = player_paddle g /\
  comp_paddle (offscreen_check g) = comp_paddle g.
Proof.
  unfold offscreen_check, check_right, check_left.
  destruct (out_left g).
  - destruct (out_right (reset_ball (score_computer g))); cbn; auto.
  - destruct (out_right g); cbn; auto.
Qed.

Lemma game_over_check_fields (g : Game) :
  player_paddle (game_over_check g) = player_paddle g /\
  comp_paddle (game_over_check g) = comp_paddle g /\
  ball (game_over_check g) = ball g /\
  player_score (game_over_check g) = player_score g /\
  player_lives (game_over_check g) = player_lives g /\
  comp_score (game_over_check g) = comp_score g /\
  comp_lives (game_over_check g) = comp_lives g /\
  rand (game_over_check g) = rand g.
Proof. unfold game_over_check; destruct (lives_out g); cbn; repeat split. Qed.

Lemma loop_body_player_paddle (f : Frame) (g : Game) :
  player_paddle (loop_body f g) = Paddle_update (player_dy f) (player_paddle g).
Proof.
  unfold loop_body, before_offscreen.
  rewrite (proj1 (game_over_check_fields _)), (proj1 (offscreen_check_paddles _)),
    (proj1 (paddle_collisions_paddles _)).
  apply before_collisions_player_paddle.
Qed.

Lemma loop_body_comp_paddle (f : Frame) (g : Game) :
  comp_paddle (loop_body f g) = comp_paddle (computer_ai g).
Proof.
  unfold loop_body, before_offscreen.
  rewrite (proj1 (proj2 (game_over_check_fields _))),
    (proj2 (offscreen_check_paddles _)),
    (proj1 (proj2 (paddle_collisions_paddles _))).
  apply before_collisions_comp_paddle.
Qed.

(** ** Player input *)

(** C10.  With both arrow keys held the displacement handed to the player's
    paddle is [PLAYER_SPEED] (the down key wins); the displacement is always
    one of [- PLAYER_SPEED], [0] and [PLAYER_SPEED], and it is the one the
    player's paddle is updated with in the frame. *)
Theorem player_dy_down_overrides (f : Frame) (g : Game) :
  (key_up f = true -> key_down f = true -> player_dy f = PLAYER_SPEED) /\
  (player_dy f = - PLAYER_SPEED \/ player_dy f = 0 \/ player_dy f = PLAYER_SPEED) /\
  player_dy f = (if key_down f then PLAYER_SPEED
                 else if key_up f then - PLAYER_SPEED else 0) /\
  player_paddle (loop_body f g) = Paddle_update (player_dy f) (player_paddle g).
Proof.
  split; [ | split; [ | split ] ].
  - unfold player_dy; intros -> ->; reflexivity.
  - unfold player_dy; destruct (key_up f), (key_down f); auto.
  - unfold player_dy; destruct (key_up f), (key_down f); reflexivity.
  - apply loop_body_player_paddle.
Qed.

Lemma player_dy_down_overrides_witness :
  player_dy hold_both = PLAYER_SPEED /\
  Rect.y (prect (player_paddle (loop_body hold_both (initial all_minus)))) = 257.
Proof.
  destruct (player_dy_down_overrides hold_both (initial all_minus))
    as (Hboth & _ & _ & Hpad).
  split.
  - apply Hboth; reflexivity.
  - rewrite Hpad; reflexivity.
Defined.

(** ** Computer paddle *)

(** C9.  The computer's paddle compares the vertical centre of the ball with
    its own: when the ball's centre is strictly above, the paddle is updated
    with [- COMP_SPEED]; when strictly below, with [COMP_SPEED]; when the two
    are equal the paddle is left where it is.  The comparison uses the ball
    as it is at the start of the frame, and for a paddle inside the screen
    the update moves it by exactly [COMP_SPEED] unless the edge of the screen
    is nearer than that. *)
Theorem computer_ai_tracks_ball (f : Frame) (g : Game) :
  let bc := Rect.centery (brect (ball g)) in
  let pc := Rect.centery (prect (comp_paddle g)) in
  let p := comp_paddle g in
  let p' := comp_paddle (loop_body f g) in
  (bc < pc -> p' = Paddle_update (- COMP_SPEED) p) /\
  (bc > pc -> p' = Paddle_update COMP_SPEED p) /\
  (bc = pc -> p' = p) /\
  (in_field (prect p) -> bc < pc ->
     Rect.y (prect p') = Z.max 0 (Rect.y (prect p) - COMP_SPEED)) /\
  (in_field (prect p) -> bc > pc ->
     Rect.y (prect p') =
       Z.min (SCREEN_HEIGHT - Rect.h (prect p)) (Rect.y (prect p) + COMP_SPEED)).
Proof.
  intros bc pc p p'.
  assert (Hp' : p' = comp_paddle (computer_ai g))
    by apply loop_body_comp_paddle.
  assert (Hup : bc < pc -> p' = Paddle_update (- COMP_SPEED) p).
  { intros H; rewrite Hp'; unfold computer_ai, comp_dy.
    fold bc pc. destruct (Z.ltb_spec bc pc); [ reflexivity | lia ]. }
  assert (Hdown : bc > pc -> p' = Paddle_update COMP_SPEED p).
  { intros H; rewrite Hp'; unfold computer_ai, comp_dy.
    fold bc pc. destruct (Z.ltb_spec bc pc); [ lia | ].
    destruct (Z.gtb_spec bc pc); [ reflexivity | lia ]. }
  repeat split; auto.
  - intros H; rewrite Hp'; unfold computer_ai, comp_dy.
    fold bc pc. destruct (Z.ltb_spec bc pc); [ lia | ].
    destruct (Z.gtb_spec bc pc); [ lia | reflexivity ].
  - intros Hin H; rewrite (Hup H), (Paddle_update_y _ _ Hin).
    destruct Hin as [Ht Hb]; revert Ht Hb; unfold_rect; unfold_consts; fold p; lia.
  - intros Hin H; rewrite (Hdown H), (Paddle_update_y _ _ Hin).
    destruct Hin as [Ht Hb]; revert Ht Hb; unfold_rect; unfold_consts; fold p; lia.
Qed.

Lemma computer_ai_tracks_ball_witness :
  comp_paddle (loop_body idle (run [idle] (initial all_minus))) =
    Paddle_update (- COMP_SPEED) (comp_paddle (run [idle] (initial all_minus))) /\
  comp_paddle (loop_body idle (initial all_minus)) =
    comp_paddle (initial all_minus).
Proof.
  split.
  - apply (computer_ai_tracks_ball idle (run [idle] (initial all_minus)));
      reflexivity.
  - apply (computer_ai_tracks_ball idle (initial all_minus)); reflexivity.
Defined.

(** ** The ball *)

Lemma Ball_update_rect (b : Ball) :
  brect (Ball_update b) =
    Rect.make (Rect.x (brect b) + speed_x b) (Rect.y (brect b) + speed_y b)
              (Rect.w (brect b)) (Rect.h (brect b)).
Proof. unfold Ball_update; split_if; reflexivity. Qed.

Lemma Ball_update_abs (b : Ball) :
  Z.abs (speed_x (Ball_update b)) = Z.abs (speed_x b) /\
  Z.abs (speed_y (Ball_update b)) = Z.abs (speed_y b).
Proof. unfold Ball_update; split_if; cbn [speed_x speed_y]; lia. Qed.

(** C7.  [Ball.update] moves the ball by its velocity and then, when the
    moved ball's top bound is at most 0 or its bottom bound at least
    [SCREEN_HEIGHT], negates the vertical speed once (also when both tests
    hold); otherwise the vertical speed is kept.  The position is the moved
    one in either case, with no correction, the horizontal speed is kept,
    and this is the ball the rest of the frame works on. *)
Theorem Ball_update_wall_bounce (b : Ball) :
  let b' := Ball_update b in
  (Rect.top (brect b') <= 0 \/ Rect.bottom (brect b') >= SCREEN_HEIGHT ->
     speed_y b' = - speed_y b) /\
  (0 < Rect.top (brect b') /\ Rect.bottom (brect b') < SCREEN_HEIGHT ->
     speed_y b' = speed_y b) /\
  Rect.x (brect b') = Rect.x (brect b) + speed_x b /\
  Rect.y (brect b') = Rect.y (brect b) + speed_y b /\
  Rect.w (brect b') = Rect.w (brect b) /\
  Rect.h (brect b') = Rect.h (brect b) /\
  speed_x b' = speed_x b /\
  (forall f g, ball g = b -> ball (before_collisions f g) = b').
Proof.
  intros b'; subst b'.
  rewrite Ball_update_rect; unfold_rect.
  repeat split; try (unfold Ball_update; split_if; reflexivity).
  - unfold Ball_update; unfold_rect; intros H.
    destruct (Z.leb_spec (Rect.y (brect b) + speed_y b) 0);
      destruct (Z.geb_spec (Rect.y (brect b) + speed_y b + Rect.h (brect b))
                           SCREEN_HEIGHT);
      cbn [orb speed_y]; lia.
  - unfold Ball_update; unfold_rect; intros H.
    destruct (Z.leb_spec (Rect.y (brect b) + speed_y b) 0);
      destruct (Z.geb_spec (Rect.y (brect b) + speed_y b + Rect.h (brect b))
                           SCREEN_HEIGHT);
      cbn [orb speed_y]; lia.
  - intros f g <-; apply before_collisions_ball.
Qed.

Lemma Ball_update_wall_bounce_witness :
  speed_y (Ball_update (mkBall (Rect.make 100 3 20 20) (-7) (-7))) = 7 /\
  speed_y (Ball_update (mkBall (Rect.make 100 (-700) 20 1400) (-7) (-7))) = 7 /\
  speed_y (Ball_update (mkBall (Rect.make 100 300 20 20) (-7) (-7))) = -7 /\
  ball (before_collisions idle (initial all_minus)) =
    Ball_update (ball (initial all_minus)).
Proof.
  split; [ | split; [ | split ] ].
  - destruct (Ball_update_wall_bounce (mkBall (Rect.make 100 3 20 20) (-7) (-7)))
      as (Hflip & _).
    apply Hflip; left; vm_compute; discriminate.
  - destruct (Ball_update_wall_bounce
                (mkBall (Rect.make 100 (-700) 20 1400) (-7) (-7)))
      as (Hflip & _).
    apply Hflip; right; vm_compute; discriminate.
  - destruct (Ball_update_wall_bounce (mkBall (Rect.make 100 300 20 20) (-7) (-7)))
      as (_ & Hkeep & _).
    apply Hkeep; split; vm_compute; reflexivity.
  - destruct (Ball_update_wall_bounce (ball (initial all_minus)))
      as (_ & _ & _ & _ & _ & _ & _ & Hframe).
    apply (Hframe idle (initial all_minus)); reflexivity.
Defined.

Lemma Ball_reset_fst (b : Ball) (r : Random) :
  fst (Ball_reset b r) =
    mkBall (Rect.set_center (SCREEN_WIDTH / 2, SCREEN_HEIGHT / 2) (brect b))
           (7 * sign_of (draws r (cursor r)))
           (7 * sign_of (draws r (S (cursor r)))).
Proof. reflexivity. Qed.

Lemma Ball_reset_snd (b : Ball) (r : Random) :
  snd (Ball_reset b r) = mkRandom (draws r) (S (S (cursor r))).
Proof. reflexivity. Qed.

Lemma abs_7_sign (d : bool) : Z.abs (7 * sign_of d) = 7.
Proof. destruct d; reflexivity. Qed.


(** ** Scores and lives *)

Lemma before_collisions_counters (f : Frame) (g : Game) :
  counters (before_collisions f g) = counters g.
Proof.
  unfold before_collisions, update_ball, computer_ai, player_input,
    process_events.
  destruct (ev_quit f); cbn [set_running set_player_paddle ball comp_paddle];
    destruct (comp_dy _ _); reflexivity.
Qed.

Lemma paddle_collisions_counters (g : Game) :
  counters (paddle_collisions g) = counters g.
Proof.
  unfold paddle_collisions, collide_comp, collide_player.
  destruct (hits_player g); [ destruct (hits_comp (bounce g)) | destruct (hits_comp g) ];
    reflexivity.
Qed.

Lemma before_offscreen_counters (f : Frame) (g : Game) :
  counters (before_offscreen f g) = counters g.
Proof.
  unfold before_offscreen.
  rewrite paddle_collisions_counters; apply before_collisions_counters.
Qed.

Lemma game_over_check_counters (g : Game) :
  counters (game_over_check g) = counters g.
Proof. unfold game_over_check; destruct (lives_out g); reflexivity. Qed.

Lemma before_offscreen_ball_rect (f : Frame) (g : Game) :
  brect (ball (before_offscreen f g)) = brect (Ball_update (ball g)).
Proof.
  unfold before_offscreen.
  rewrite (proj2 (proj2 (paddle_collisions_paddles _))), before_collisions_ball.
  reflexivity.
Qed.

Lemma reset_ball_fields (g : Game) :
  counters (reset_ball g) = counters g /\
  ball (reset_ball g) = fst (Ball_reset (ball g) (rand g)) /\
  rand (reset_ball g) = snd (Ball_reset (ball g) (rand g)) /\
  running (reset_ball g) = running g.
Proof. repeat split. Qed.

(** After a reset the ball is not off the screen on the right, whatever its
    size, as long as its width is not negative. *)
Lemma reset_ball_not_out_right (g : Game) :
  0 <= Rect.w (brect (ball g)) -> out_right (reset_ball g) = false.
Proof.
  intros Hw; unfold out_right.
  rewrite (proj1 (proj2 (reset_ball_fields g))), Ball_reset_fst.
  cbn [brect]; unfold_rect; unfold_consts.
  change (800 / 2) with 400.
  assert (0 <= Rect.w (brect (ball g)) / 2) by (apply Z.div_pos; lia).
  destruct (Z.gtb_spec (400 - Rect.w (brect (ball g)) / 2) 800); [ lia | reflexivity ].
Qed.

Lemma out_left_right_exclusive (g : Game) :
  0 <= Rect.w (brect (ball g)) -> ~ (out_left g = true /\ out_right g = true).
Proof.
  unfold out_left, out_right; unfold_rect; unfold_consts; intros Hw [Hl Hr].
  apply Z.ltb_lt in Hl; rewrite Z.gtb_ltb in Hr; apply Z.ltb_lt in Hr; lia.
Qed.

Lemma offscreen_check_cases (g : Game) :
  0 <= Rect.w (brect (ball g)) ->
  offscreen_check g =
    (if out_left g then reset_ball (score_computer g)
     else if out_right g then reset_ball (score_player g)
     else g).
Proof.
  intros Hw; unfold offscreen_check, check_left.
  destruct (out_left g) eqn:Hl.
  - unfold check_right.
    rewrite (reset_ball_not_out_right (score_computer g)); [ reflexivity | exact Hw ].
  - reflexivity.
Qed.

(** The off-screen check and the counters, for any state [g1] the check
    starts from and any state [g'] that has the counters and the ball the
    check ends with. *)
Lemma offscreen_check_scoring (g1 g' : Game) :
  0 <= Rect.w (brect (ball g1)) ->
  counters g' = counters (offscreen_check g1) ->
  ball g' = ball (offscreen_check g1) ->
  (out_left g1 = true ->
     counters g' =
       (player_score g1, player_lives g1 - 1, comp_score g1 + 1, comp_lives g1) /\
     ball g' = fst (Ball_reset (ball g1) (rand g1))) /\
  (out_right g1 = true ->
     counters g' =
       (player_score g1 + 1, player_lives g1, comp_score g1, comp_lives g1 - 1) /\
     ball g' = fst (Ball_reset (ball g1) (rand g1))) /\
  (out_left g1 = false -> out_right g1 = false ->
     counters g' = counters g1 /\ ball g' = ball g1) /\
  ~ (out_left g1 = true /\ out_right g1 = true) /\
  (out_left g1 = true -> out_right (check_left g1) = false) /\
  offscreen_check g1 =
    (if out_left g1 then reset_ball (score_computer g1)
     else if out_right g1 then reset_ball (score_player g1)
     else g1).
Proof.
  intros Hw1 Hcg' Hbg'.
  assert (Hcases := offscreen_check_cases g1 Hw1).
  assert (Hex := out_left_right_exclusive g1 Hw1).
  split; [ | split; [ | split; [ | split; [ | split ] ] ] ].
  - intros Hl; rewrite Hcg', Hbg', Hcases, Hl; split; reflexivity.
  - intros Hr.
    assert (Hl : out_left g1 = false)
      by (destruct (out_left g1); [ exfalso; apply Hex; auto | reflexivity ]).
    rewrite Hcg', Hbg', Hcases, Hl, Hr; split; reflexivity.
  - intros Hl Hr; rewrite Hcg', Hbg', Hcases, Hl, Hr; split; reflexivity.
  - exact Hex.
  - intros Hl; unfold check_left; rewrite Hl.
    apply (reset_ball_not_out_right (score_computer g1)); exact Hw1.
  - exact Hcases.
Qed.

Lemma counters_fields (g1 g : Game) :
  counters g1 = counters g ->
  player_score g1 = player_score g /\ player_lives g1 = player_lives g /\
  comp_score g1 = comp_score g /\ comp_lives g1 = comp_lives g.
Proof. unfold counters; intros H; injection H; auto. Qed.

(** C1.  In a frame in which the off-screen check finds the ball wholly to
    the left of the screen (right bound below 0), the computer's score goes up
    by exactly 1, the player's lives go down by exactly 1 and the other two
    counters keep their values; when it finds the ball wholly to the right
    (left bound above [SCREEN_WIDTH]), the player's score goes up by exactly
    1, the computer's lives go down by exactly 1 and the other two keep their
    values.  The two tests cannot both hold for one ball, the second test
    never succeeds on the ball that the first has just reset, each scoring
    is followed at once by the reset of the ball, and a frame in which
    neither test holds changes no counter. *)
Theorem offscreen_scoring (f : Frame) (g : Game) :
  0 <= Rect.w (brect (ball g)) ->
  let g1 := before_offscreen f g in
  let g' := loop_body f g in
  (out_left g1 = true ->
     counters g' =
       (player_score g, player_lives g - 1, comp_score g + 1, comp_lives g) /\
     ball g' = fst (Ball_reset (ball g1) (rand g1))) /\
  (out_right g1 = true ->
     counters g' =
       (player_score g + 1, player_lives g, comp_score g, comp_lives g - 1) /\
     ball g' = fst (Ball_reset (ball g1) (rand g1))) /\
  (out_left g1 = false -> out_right g1 = false ->
     counters g' = counters g /\ ball g' = ball g1) /\
  ~ (out_left g1 = true /\ out_right g1 = true) /\
  (out_left g1 = true -> out_right (check_left g1) = false) /\
  offscreen_check g1 =
    (if out_left g1 then reset_ball (score_computer g1)
     else if out_right g1 then reset_ball (score_player g1)
     else g1).
Proof.
  intros Hw.
  assert (Hw1 : 0 <= Rect.w (brect (ball (before_offscreen f g)))).
  { rewrite before_offscreen_ball_rect, Ball_update_rect; exact Hw. }
  assert (Hc1 := before_offscreen_counters f g).
  assert (Hcg' : counters (loop_body f g) =
                 counters (offscreen_check (before_offscreen f g)))
    by apply game_over_check_counters.
  assert (Hbg' : ball (loop_body f g) =
                 ball (offscreen_check (before_offscreen f g)))
    by apply game_over_check_fields.
  generalize (offscreen_check_scoring _ _ Hw1 Hcg' Hbg').
  generalize (counters_fields _ _ Hc1); rewrite Hc1.
  generalize (before_offscreen f g) (loop_body f g).
  intros g1 g' (-> & -> & -> & ->) H; exact H.
Qed.

Lemma offscreen_scoring_witness :
  counters (loop_body idle (run (repeat idle 58) (initial all_minus))) = (0, 2, 1, 3) /\
  counters (loop_body idle leaving_right) = (1, 3, 0, 2) /\
  counters (loop_body idle (initial all_minus)) = (0, 3, 0, 3).
Proof.
  split; [ | split ].
  - destruct (offscreen_scoring idle (run (repeat idle 58) (initial all_minus)))
      as (Hleft & _); [ vm_compute; discriminate | ].
    destruct Hleft as [Hc _]; [ vm_compute; reflexivity | ].
    rewrite Hc; vm_compute; reflexivity.
  - destruct (offscreen_scoring idle leaving_right)
      as (_ & Hright & _); [ vm_compute; discriminate | ].
    destruct Hright as [Hc _]; [ vm_compute; reflexivity | ].
    rewrite Hc; vm_compute; reflexivity.
  - destruct (offscreen_scoring idle (initial all_minus))
      as (_ & _ & Hnone & _); [ vm_compute; discriminate | ].
    destruct Hnone as [Hc _]; [ vm_compute; reflexivity | vm_compute; reflexivity | ].
    rewrite Hc; vm_compute; reflexivity.
Defined.

Lemma offscreen_check_mono (g : Game) :
  player_score g <= player_score (offscreen_check g) <= player_score g + 1 /\
  comp_score g <= comp_score (offscreen_check g) <= comp_score g + 1 /\
  player_lives g - 1 <= player_lives (offscreen_check g) <= player_lives g /\
  comp_lives g - 1 <= comp_lives (offscreen_check g) <= comp_lives g.
Proof.
  unfold offscreen_check, check_right, check_left.
  destruct (out_left g).
  - destruct (out_right (reset_ball (score_computer g))); cbn; lia.
  - destruct (out_right g); cbn; lia.
Qed.

Lemma loop_body_mono (f : Frame) (g : Game) :
  player_score g <= player_score (loop_body f g) <= player_score g + 1 /\
  comp_score g <= comp_score (loop_body f g) <= comp_score g + 1 /\
  player_lives g - 1 <= player_lives (loop_body f g) <= player_lives g /\
  comp_lives g - 1 <= comp_lives (loop_body f g) <= comp_lives g.
Proof.
  assert (H1 := counters_fields _ _ (before_offscreen_counters f g)).
  assert (H2 := counters_fields _ _
                  (game_over_check_counters (offscreen_check (before_offscreen f g)))).
  assert (H3 := offscreen_check_mono (before_offscreen f g)).
  unfold loop_body.
  revert H1 H2 H3.
  generalize (game_over_check (offscreen_check (before_offscreen f g)))
             (offscreen_check (before_offscreen f g)) (before_offscreen f g).
  intros g3 g2 g1; lia.
Qed.

Lemma loop_iter_mono (f : Frame) (g : Game) :
  player_score g <= player_score (loop_iter f g) <= player_score g + 1 /\
  comp_score g <= comp_score (loop_iter f g) <= comp_score g + 1 /\
  player_lives g - 1 <= player_lives (loop_iter f g) <= player_lives g /\
  comp_lives g - 1 <= comp_lives (loop_iter f g) <= comp_lives g.
Proof.
  unfold loop_iter; destruct (running g); [ apply loop_body_mono | lia ].
Qed.

Lemma reachable_run (fs : list Frame) :
  forall g, reachable g -> reachable (run fs g).
Proof.
  induction fs as [ | f fs IH ]; intros g Hg; cbn [run].
  - exact Hg.
  - apply IH, reach_iter, Hg.
Qed.

Lemma initial_counters (r : Random) :
  counters (initial r) = (0, STARTING_LIVES, 0, STARTING_LIVES) /\
  running (initial r) = true.
Proof. split; reflexivity. Qed.

Lemma game_over_check_running (g : Game) :
  running (game_over_check g) = running g && negb (lives_out g).
Proof.
  unfold game_over_check; destruct (lives_out g); cbn [set_running running negb].
  - symmetry; apply andb_false_r.
  - symmetry; apply andb_true_r.
Qed.

Lemma lives_out_false (g : Game) :
  lives_out g = false <-> 0 < player_lives g /\ 0 < comp_lives g.
Proof.
  unfold lives_out; rewrite orb_false_iff, !Z.leb_gt; reflexivity.
Qed.

Lemma lives_out_true (g : Game) :
  lives_out g = true <-> player_lives g <= 0 \/ comp_lives g <= 0.
Proof.
  unfold lives_out; rewrite orb_true_iff, !Z.leb_le; reflexivity.
Qed.

(** A pass through the loop that leaves [running] set leaves both sides with
    a life. *)
Lemma loop_body_running_lives (f : Frame) (g : Game) :
  running (loop_body f g) = true ->
  0 < player_lives (loop_body f g) /\ 0 < comp_lives (loop_body f g).
Proof.
  unfold loop_body.
  generalize (offscreen_check (before_offscreen f g)); intros g2.
  rewrite game_over_check_running.
  destruct (game_over_check_fields g2) as (_ & _ & _ & _ & -> & _ & -> & _).
  intros H; apply andb_true_iff in H; destruct H as [_ H].
  apply negb_true_iff in H; apply lives_out_false; exact H.
Qed.

(** The loop runs only while both sides have a life left, and no side ever
    has a negative number of lives. *)
Lemma reachable_lives (g : Game) :
  reachable g ->
  0 <= player_lives g /\ 0 <= comp_lives g /\
  (running g = true -> 0 < player_lives g /\ 0 < comp_lives g).
Proof.
  induction 1 as [ r | f g Hg IH ].
  - cbn; unfold_consts; lia.
  - unfold loop_iter; destruct (running g) eqn:Hrun;
      [ | rewrite Hrun; exact IH ].
    destruct IH as (_ & _ & IH); specialize (IH eq_refl).
    assert (Hm := loop_body_mono f g).
    assert (Hr := loop_body_running_lives f g).
    revert Hm Hr; generalize (loop_body f g); intros g' Hm Hr.
    split; [ lia | split; [ lia | exact Hr ] ].
Qed.

(** C8.  The scores start at 0 and the lives at [STARTING_LIVES], which is
    3; no pass through the loop lowers a score or raises a number of lives;
    hence in every state the program reaches the scores are not negative and
    the lives are at most 3. *)
Theorem scores_up_lives_down :
  (forall r, player_score (initial r) = 0 /\ comp_score (initial r) = 0 /\
             player_lives (initial r) = 3 /\ comp_lives (initial r) = 3 /\
             STARTING_LIVES = 3) /\
  (forall f g,
     player_score g <= player_score (loop_iter f g) /\
     comp_score g <= comp_score (loop_iter f g) /\
     player_lives (loop_iter f g) <= player_lives g /\
     comp_lives (loop_iter f g) <= comp_lives g) /\
  (forall fs g,
     player_score g <= player_score (run fs g) /\
     comp_score g <= comp_score (run fs g) /\
     player_lives (run fs g) <= player_lives g /\
     comp_lives (run fs g) <= comp_lives g) /\
  (forall g, reachable g ->
     0 <= player_score g /\ 0 <= comp_score g /\
     player_lives g <= 3 /\ comp_lives g <= 3).
Proof.
  assert (Hstep : forall f g,
     player_score g <= player_score (loop_iter f g) /\
     comp_score g <= comp_score (loop_iter f g) /\
     player_lives (loop_iter f g) <= player_lives g /\
     comp_lives (loop_iter f g) <= comp_lives g).
  { intros f g; assert (H := loop_iter_mono f g); lia. }
  split; [ intros r; repeat split | ].
  split; [ exact Hstep | ].
  split.
  - induction fs as [ | f fs IH ]; intros g; cbn [run]; [ lia | ].
    specialize (IH (loop_iter f g)); specialize (Hstep f g); lia.
  - induction 1 as [ r | f g Hg IH ].
    + cbn; unfold_consts; lia.
    + specialize (Hstep f g); lia.
Qed.

Lemma scores_up_lives_down_witness :
  0 <= player_score (run (repeat idle 60) (initial all_minus)) /\
  0 <= comp_score (run (repeat idle 60) (initial all_minus)) /\
  player_lives (run (repeat idle 60) (initial all_minus)) <= 3 /\
  comp_lives (run (repeat idle 60) (initial all_minus)) <= 3.
Proof.
  apply scores_up_lives_down.
  apply reachable_run, reach_initial.
Defined.

(** ** The loop flag *)

Lemma before_collisions_running (f : Frame) (g : Game) :
  running (before_collisions f g) = running g && negb (ev_quit f).
Proof.
  unfold before_collisions, update_ball, computer_ai, player_input,
    process_events.
  destruct (ev_quit f); cbn [set_running set_player_paddle ball comp_paddle];
    destruct (comp_dy _ _); cbn [running set_ball set_comp_paddle negb];
    auto using andb_false_r, andb_true_r.
Qed.

Lemma paddle_collisions_running (g : Game) :
  running (paddle_collisions g) = running g.
Proof.
  unfold paddle_collisions, collide_comp, collide_player.
  destruct (hits_player g); [ destruct (hits_comp (bounce g)) | destruct (hits_comp g) ];
    reflexivity.
Qed.

Lemma offscreen_check_running (g : Game) :
  running (offscreen_check g) = running g.
Proof.
  unfold offscreen_check, check_right, check_left.
  destruct (out_left g).
  - destruct (out_right (reset_ball (score_computer g))); reflexivity.
  - destruct (out_right g); reflexivity.
Qed.

Lemma lives_out_counters (g1 g2 : Game) :
  counters g1 = counters g2 -> lives_out g1 = lives_out g2.
Proof.
  intros H; apply counters_fields in H; destruct H as (_ & Hp & _ & Hc).
  unfold lives_out; rewrite Hp, Hc; reflexivity.
Qed.

(** The flag after one pass: it stays set unless a [QUIT] event was read or a
    side is out of lives at the end of the pass. *)
Lemma loop_body_running (f : Frame) (g : Game) :
  running (loop_body f g) =
    running g && negb (ev_quit f) && negb (lives_out (loop_body f g)).
Proof.
  rewrite (lives_out_counters (loop_body f g)
             (offscreen_check (before_offscreen f g)))
    by apply game_over_check_counters.
  unfold loop_body; rewrite game_over_check_running, offscreen_check_running.
  unfold before_offscreen.
  rewrite paddle_collisions_running, before_collisions_running; reflexivity.
Qed.

Lemma run_stopped (fs : list Frame) (g : Game) :
  running g = false -> run fs g = g.
Proof.
  induction fs as [ | f fs IH ]; intros Hg; cbn [run]; [ reflexivity | ].
  unfold loop_iter; rewrite Hg; apply IH, Hg.
Qed.

Lemma loop_iter_stops (f : Frame) (g : Game) :
  running g = true ->
  (running (loop_iter f g) = false <->
   ev_quit f = true \/
   player_lives (loop_iter f g) <= 0 \/ comp_lives (loop_iter f g) <= 0).
Proof.
  intros Hg; unfold loop_iter; rewrite Hg.
  rewrite loop_body_running, Hg, <- lives_out_true.
  generalize (lives_out (loop_body f g)); intros o.
  destruct (ev_quit f), o; cbn; intuition congruence.
Qed.

Lemma run_stopped_cause (fs : list Frame) :
  forall g,
    running g = true ->
    running (run fs g) = false ->
    Exists (fun f => ev_quit f = true) fs \/
    player_lives (run fs g) <= 0 \/ comp_lives (run fs g) <= 0.
Proof.
  induction fs as [ | f fs IH ]; intros g Hg Hstop; cbn [run] in *.
  - congruence.
  - destruct (running (loop_iter f g)) eqn:Hnext.
    + destruct (IH _ Hnext Hstop) as [Hq | Hl]; [ left; right; exact Hq | right; exact Hl ].
    + rewrite (run_stopped fs _ Hnext).
      apply (loop_iter_stops f g Hg) in Hnext.
      destruct Hnext as [Hq | Hl]; [ left; left; exact Hq | right; exact Hl ].
Qed.

(** C2, as the code has it.  A pass through the loop that starts with the
    flag set clears it exactly when a [QUIT] event was read in that pass or
    a side has no life left at its end.  In every state the program reaches,
    a side without lives means the loop has stopped; a stopped loop means
    that some frame carried a [QUIT] event or a side is without lives, so a
    session without [QUIT] events stops exactly when a side is out of lives.
    Once the loop has stopped no frame changes the state, the scores and
    the lives included. *)
Theorem loop_stops_iff_quit_or_lives_out :
  (forall f g, running g = true ->
     (running (loop_iter f g) = false <->
      ev_quit f = true \/
      player_lives (loop_iter f g) <= 0 \/ comp_lives (loop_iter f g) <= 0)) /\
  (forall g, reachable g ->
     player_lives g <= 0 \/ comp_lives g <= 0 -> running g = false) /\
  (forall r fs, running (run fs (initial r)) = false ->
     Exists (fun f => ev_quit f = true) fs \/
     player_lives (run fs (initial r)) <= 0 \/
     comp_lives (run fs (initial r)) <= 0) /\
  (forall r fs, Forall (fun f => ev_quit f = false) fs ->
     (running (run fs (initial r)) = false <->
      player_lives (run fs (initial r)) <= 0 \/
      comp_lives (run fs (initial r)) <= 0)) /\
  (forall fs g, running g = false ->
     run fs g = g /\ counters (run fs g) = counters g).
Proof.
  assert (Hif : forall g, reachable g ->
     player_lives g <= 0 \/ comp_lives g <= 0 -> running g = false).
  { intros g Hg Hl; destruct (reachable_lives g Hg) as (_ & _ & Hrun).
    destruct (running g); [ specialize (Hrun eq_refl); lia | reflexivity ]. }
  assert (Honly : forall r fs, running (run fs (initial r)) = false ->
     Exists (fun f => ev_quit f = true) fs \/
     player_lives (run fs (initial r)) <= 0 \/
     comp_lives (run fs (initial r)) <= 0).
  { intros r fs; apply run_stopped_cause; reflexivity. }
  split; [ exact loop_iter_stops | ].
  split; [ exact Hif | ].
  split; [ exact Honly | ].
  split.
  - intros r fs Hnq; split.
    + intros Hstop; destruct (Honly r fs Hstop) as [Hq | Hl]; [ | exact Hl ].
      apply Exists_exists in Hq; destruct Hq as (f & Hin & Hq).
      rewrite Forall_forall in Hnq; specialize (Hnq f Hin); congruence.
    + apply Hif, reachable_run, reach_initial.
  - intros fs g Hg; rewrite (run_stopped fs g Hg); split; reflexivity.
Qed.

Lemma loop_stops_iff_quit_or_lives_out_witness :
  running (loop_iter quit_now (initial all_minus)) = false /\
  running (run (repeat idle 200) (initial all_minus)) = false /\
  run [idle; hold_up] (run (repeat idle 200) (initial all_minus)) =
    run (repeat idle 200) (initial all_minus).
Proof.
  destruct loop_stops_iff_quit_or_lives_out as (Hstep & Hif & _ & _ & Hafter).
  split; [ | split ].
  - apply (Hstep quit_now (initial all_minus)); [ reflexivity | left; reflexivity ].
  - apply Hif; [ apply reachable_run, reach_initial | left; vm_compute; discriminate ].
  - apply Hafter.
    apply Hif; [ apply reachable_run, reach_initial | left; vm_compute; discriminate ].
Defined.

(** The claim C2 read without the [QUIT] event fails: after a [QUIT] in the
    first frame the loop has stopped while both sides still have their three
    lives. *)
Lemma quit_stops_loop_with_lives_left :
  ~ (forall g, reachable g ->
       (running g = false <-> player_lives g <= 0 \/ comp_lives g <= 0)).
Proof.
  intros H.
  specialize (H (loop_iter quit_now (initial all_minus))
                (reach_iter _ _ (reach_initial all_minus))).
  destruct H as [H _]; specialize (H eq_refl).
  vm_compute in H; destruct H as [H | H]; apply H; reflexivity.
Qed.

(** ** Layout of the sprites *)

Lemma layout_initial (r : Random) : layout (initial r).
Proof. unfold layout; cbn; unfold_consts; repeat split. Qed.

Lemma layout_ext (g1 g2 : Game) :
  Rect.w (brect (ball g2)) = Rect.w (brect (ball g1)) ->
  Rect.h (brect (ball g2)) = Rect.h (brect (ball g1)) ->
  (Rect.x (prect (player_paddle g2)) = Rect.x (prect (player_paddle g1)) /\
   Rect.w (prect (player_paddle g2)) = Rect.w (prect (player_paddle g1)) /\
   Rect.h (prect (player_paddle g2)) = Rect.h (prect (player_paddle g1))) ->
  (Rect.x (prect (comp_paddle g2)) = Rect.x (prect (comp_paddle g1)) /\
   Rect.w (prect (comp_paddle g2)) = Rect.w (prect (comp_paddle g1)) /\
   Rect.h (prect (comp_paddle g2)) = Rect.h (prect (comp_paddle g1))) ->
  layout g1 -> layout g2.
Proof.
  unfold layout; intros -> -> (-> & -> & ->) (-> & -> & ->) H; exact H.
Qed.

Lemma layout_before_collisions (f : Frame) (g : Game) :
  layout g -> layout (before_collisions f g).
Proof.
  apply layout_ext.
  - rewrite before_collisions_ball, Ball_update_rect; reflexivity.
  - rewrite before_collisions_ball, Ball_update_rect; reflexivity.
  - rewrite before_collisions_player_paddle; apply Paddle_update_size.
  - rewrite before_collisions_comp_paddle; unfold computer_ai.
    destruct (comp_dy _ _); cbn [set_comp_paddle comp_paddle];
      [ apply Paddle_update_size | auto ].
Qed.

Lemma layout_paddle_collisions (g : Game) :
  layout g -> layout (paddle_collisions g).
Proof.
  destruct (paddle_collisions_paddles g) as (Hp & Hc & Hb).
  apply layout_ext; rewrite ?Hp, ?Hc, ?Hb; auto.
Qed.

Lemma layout_offscreen_check (g : Game) :
  layout g -> layout (offscreen_check g).
Proof.
  destruct (offscreen_check_paddles g) as (Hp & Hc).
  apply layout_ext; rewrite ?Hp, ?Hc; auto;
    unfold offscreen_check, check_right, check_left;
    (destruct (out_left g);
     [ destruct (out_right (reset_ball (score_computer g)))
     | destruct (out_right g) ]); reflexivity.
Qed.

Lemma layout_game_over_check (g : Game) :
  layout g -> layout (game_over_check g).
Proof.
  destruct (game_over_check_fields g) as (Hp & Hc & Hb & _).
  apply layout_ext; rewrite ?Hp, ?Hc, ?Hb; auto.
Qed.

Lemma layout_loop_iter (f : Frame) (g : Game) :
  layout g -> layout (loop_iter f g).
Proof.
  intros H; unfold loop_iter; destruct (running g); [ | exact H ].
  unfold loop_body, before_offscreen.
  apply layout_game_over_check, layout_offscreen_check,
    layout_paddle_collisions, layout_before_collisions, H.
Qed.

Lemma reachable_layout (g : Game) : reachable g -> layout g.
Proof.
  induction 1 as [ r | f g Hg IH ];
    [ apply layout_initial | apply layout_loop_iter, IH ].
Qed.

(** With the sprites laid out as configured, a ball that overlaps the
    player's paddle does not overlap the computer's. *)
Lemma layout_one_paddle (g : Game) :
  layout g ->
  Rect.colliderect (brect (ball g)) (prect (player_paddle g)) = true ->
  Rect.colliderect (brect (ball g)) (prect (comp_paddle g)) = false.
Proof.
  unfold layout, Rect.colliderect; unfold_consts.
  intros (-> & -> & -> & -> & -> & -> & -> & ->).
  cbn [Z.eqb orb].
  intros H; apply andb_true_iff in H; destruct H as [H _].
  apply andb_true_iff in H; destruct H as [H _].
  apply andb_true_iff in H; destruct H as [H _].
  apply Z.ltb_lt in H.
  destruct (Z.ltb_spec (Z.min (800 - 30 - 20) (800 - 30 - 20 + 20))
              (Z.max (Rect.x (brect (ball g))) (Rect.x (brect (ball g)) + 20)));
    [ lia | ].
  rewrite !andb_false_r; reflexivity.
Qed.

(** ** Paddle collisions *)

Lemma bounce_ball (g : Game) :
  ball (bounce g) =
    mkBall (brect (ball g)) (- speed_x (ball g))
           (speed_y (ball g) + sign_of (draws (rand g) (cursor (rand g)))).
Proof. unfold bounce; cbn; f_equal; lia. Qed.

Lemma sign_of_cases (d : bool) : sign_of d = 1 \/ sign_of d = -1.
Proof. destruct d; auto. Qed.

Lemma hits_player_iff (g : Game) :
  hits_player g = true <->
  Rect.colliderect (brect (ball g)) (prect (player_paddle g)) = true /\
  speed_x (ball g) < 0.
Proof. unfold hits_player; rewrite andb_true_iff, Z.ltb_lt; reflexivity. Qed.

Lemma hits_comp_iff (g : Game) :
  hits_comp g = true <->
  Rect.colliderect (brect (ball g)) (prect (comp_paddle g)) = true /\
  speed_x (ball g) > 0.
Proof.
  unfold hits_comp; rewrite andb_true_iff, Z.gtb_ltb, Z.ltb_lt.
  split; intros [H1 H2]; split; auto; lia.
Qed.

Lemma hits_comp_bounce (g : Game) :
  hits_comp (bounce g) =
    Rect.colliderect (brect (ball g)) (prect (comp_paddle g))
    && (- speed_x (ball g) >? 0).
Proof.
  unfold hits_comp; rewrite bounce_ball.
  destruct (bounce_paddles g) as (_ & -> & _); reflexivity.
Qed.

(** The collision check on any state with the configured layout. *)
Lemma paddle_collisions_layout (g : Game) :
  layout g ->
  (hits_player g = true -> paddle_collisions g = bounce g) /\
  (hits_comp g = true -> paddle_collisions g = bounce g) /\
  (hits_player g = false -> hits_comp g = false -> paddle_collisions g = g).
Proof.
  intros Hl; unfold paddle_collisions, collide_comp, collide_player.
  split; [ | split ].
  - intros Hp; rewrite Hp, hits_comp_bounce.
    apply hits_player_iff in Hp; destruct Hp as [Hp _].
    rewrite (layout_one_paddle g Hl Hp); reflexivity.
  - intros Hc.
    assert (Hp : hits_player g = false).
    { apply hits_comp_iff in Hc; destruct Hc as [_ Hc].
      unfold hits_player.
      destruct (Z.ltb_spec (speed_x (ball g)) 0); [ lia | apply andb_false_r ]. }
    rewrite Hp, Hc; reflexivity.
  - intros -> ->; reflexivity.
Qed.

(** The order of the two checks, seen on a ball that overlaps both paddles
    (which needs sprites wider than the configured ones). *)
Lemma paddle_collisions_order (g : Game) :
  Rect.colliderect (brect (ball g)) (prect (player_paddle g)) = true ->
  Rect.colliderect (brect (ball g)) (prect (comp_paddle g)) = true ->
  (speed_x (ball g) < 0 -> paddle_collisions g = bounce (bounce g)) /\
  (speed_x (ball g) > 0 -> paddle_collisions g = bounce g).
Proof.
  intros Hp Hc; unfold paddle_collisions, collide_comp, collide_player.
  split; intros Hv.
  - rewrite (proj2 (hits_player_iff g) (conj Hp Hv)), hits_comp_bounce, Hc.
    destruct (Z.gtb_spec (- speed_x (ball g)) 0); [ reflexivity | lia ].
  - assert (H1 : hits_player g = false).
    { unfold hits_player.
      destruct (Z.ltb_spec (speed_x (ball g)) 0); [ lia | apply andb_false_r ]. }
    rewrite H1, (proj2 (hits_comp_iff g) (conj Hc Hv)); reflexivity.
Qed.

Lemma paddle_collision_response_at (g1 : Game) :
  layout g1 ->
  let g2 := paddle_collisions g1 in
  let d := sign_of (draws (rand g1) (cursor (rand g1))) in
  (Rect.colliderect (brect (ball g1)) (prect (player_paddle g1)) = true ->
   speed_x (ball g1) < 0 ->
     speed_x (ball g2) = - speed_x (ball g1) /\ 0 < speed_x (ball g2) /\
     speed_y (ball g2) = speed_y (ball g1) + d /\ (d = 1 \/ d = -1)) /\
  (Rect.colliderect (brect (ball g1)) (prect (comp_paddle g1)) = true ->
   speed_x (ball g1) > 0 ->
     speed_x (ball g2) = - speed_x (ball g1) /\ speed_x (ball g2) < 0 /\
     speed_y (ball g2) = speed_y (ball g1) + d /\ (d = 1 \/ d = -1)).
Proof.
  intros Hl g2 d; subst g2 d.
  destruct (paddle_collisions_layout g1 Hl) as (Hp & Hc & _).
  split; intros Hcol Hv.
  - rewrite (Hp (proj2 (hits_player_iff g1) (conj Hcol Hv))), bounce_ball.
    cbn [speed_x speed_y].
    split; [ reflexivity | split; [ lia | split; [ reflexivity | apply sign_of_cases ] ] ].
  - rewrite (Hc (proj2 (hits_comp_iff g1) (conj Hcol Hv))), bounce_ball.
    cbn [speed_x speed_y].
    split; [ reflexivity | split; [ lia | split; [ reflexivity | apply sign_of_cases ] ] ].
Qed.

(** C4.  In a frame in which, at the collision check, the ball overlaps the
    player's paddle and moves left, the check negates the horizontal speed,
    which is positive afterwards, and adds [1] or [-1] to the vertical speed,
    the sign being the next draw of the random source; in a frame in which
    the ball overlaps the computer's paddle and moves right, the horizontal
    speed is negated, negative afterwards, and the vertical speed changes in
    the same way.  The player's paddle is checked first and the computer's
    second, on the result of the first: a ball overlapping both paddles and
    moving left is bounced twice, one moving right once. *)
Theorem paddle_collision_response (f : Frame) (g : Game) :
  layout g ->
  let g1 := before_collisions f g in
  let g2 := paddle_collisions g1 in
  let d := sign_of (draws (rand g1) (cursor (rand g1))) in
  (Rect.colliderect (brect (ball g1)) (prect (player_paddle g1)) = true ->
   speed_x (ball g1) < 0 ->
     speed_x (ball g2) = - speed_x (ball g1) /\ 0 < speed_x (ball g2) /\
     speed_y (ball g2) = speed_y (ball g1) + d /\ (d = 1 \/ d = -1)) /\
  (Rect.colliderect (brect (ball g1)) (prect (comp_paddle g1)) = true ->
   speed_x (ball g1) > 0 ->
     speed_x (ball g2) = - speed_x (ball g1) /\ speed_x (ball g2) < 0 /\
     speed_y (ball g2) = speed_y (ball g1) + d /\ (d = 1 \/ d = -1)) /\
  (forall g0, paddle_collisions g0 = collide_comp (collide_player g0)) /\
  (forall g0,
     Rect.colliderect (brect (ball g0)) (prect (player_paddle g0)) = true ->
     Rect.colliderect (brect (ball g0)) (prect (comp_paddle g0)) = true ->
     (speed_x (ball g0) < 0 -> paddle_collisions g0 = bounce (bounce g0)) /\
     (speed_x (ball g0) > 0 -> paddle_collisions g0 = bounce g0)).
Proof.
  intros Hl.
  assert (H := paddle_collision_response_at _ (layout_before_collisions f g Hl)).
  revert H; generalize (before_collisions f g); intros g1 H.
  cbv zeta in H |- *; destruct H as [Hp Hc].
  split; [ exact Hp | split; [ exact Hc | split ] ].
  - reflexivity.
  - exact paddle_collisions_order.
Qed.

Lemma paddle_collision_response_witness :
  (speed_x (ball (before_offscreen hold_up (run (repeat hold_up 48) (initial all_minus)))) = 7 /\
   speed_y (ball (before_offscreen hold_up (run (repeat hold_up 48) (initial all_minus)))) = 6) /\
  paddle_collisions wide_paddles = bounce (bounce wide_paddles).
Proof.
  split.
  - destruct (paddle_collision_response hold_up
                (run (repeat hold_up 48) (initial all_minus)))
      as (Hp & _).
    + apply reachable_layout, reachable_run, reach_initial.
    + destruct Hp as (Hx & _ & Hy & _);
        [ vm_compute; reflexivity | vm_compute; reflexivity | ].
      unfold before_offscreen; rewrite Hx, Hy; vm_compute; split; reflexivity.
  - destruct (paddle_collision_response idle (initial all_minus)
                (layout_initial all_minus)) as (_ & _ & _ & Hord).
    apply (Hord wide_paddles); vm_compute; reflexivity.
Defined.

(** ** The speed of the ball *)

Lemma paddle_collisions_speed_x (g : Game) :
  Z.abs (speed_x (ball (paddle_collisions g))) = Z.abs (speed_x (ball g)).
Proof.
  unfold paddle_collisions, collide_comp, collide_player.
  destruct (hits_player g); [ destruct (hits_comp (bounce g)) | destruct (hits_comp g) ];
    rewrite ?bounce_ball; cbn [speed_x]; rewrite ?bounce_ball; cbn [speed_x]; lia.
Qed.

Lemma offscreen_check_speed_x (g : Game) :
  Z.abs (speed_x (ball g)) = 7 ->
  Z.abs (speed_x (ball (offscreen_check g))) = 7.
Proof.
  intros H; unfold offscreen_check, check_right, check_left.
  destruct (out_left g).
  - destruct (out_right (reset_ball (score_computer g)));
      rewrite !(proj1 (proj2 (reset_ball_fields _))), !Ball_reset_fst;
      apply abs_7_sign.
  - destruct (out_right g); [ | exact H ].
    rewrite !(proj1 (proj2 (reset_ball_fields _))), !Ball_reset_fst;
      apply abs_7_sign.
Qed.

Lemma loop_iter_speed_x (f : Frame) (g : Game) :
  Z.abs (speed_x (ball g)) = 7 ->
  Z.abs (speed_x (ball (loop_iter f g))) = 7.
Proof.
  intros H; unfold loop_iter; destruct (running g); [ | exact H ].
  unfold loop_body.
  rewrite (proj1 (proj2 (proj2 (game_over_check_fields _)))).
  apply offscreen_check_speed_x.
  unfold before_offscreen.
  rewrite paddle_collisions_speed_x, before_collisions_ball.
  rewrite (proj1 (Ball_update_abs _)); exact H.
Qed.

Lemma paddle_collisions_speed_y (g : Game) :
  layout g ->
  speed_y (ball (paddle_collisions g)) = speed_y (ball g) \/
  speed_y (ball (paddle_collisions g)) = speed_y (ball g) + 1 \/
  speed_y (ball (paddle_collisions g)) = speed_y (ball g) - 1.
Proof.
  intros Hl; destruct (paddle_collisions_layout g Hl) as (Hp & Hc & Hn).
  destruct (hits_player g) eqn:H1; [ | destruct (hits_comp g) eqn:H2 ].
  - rewrite (Hp eq_refl), bounce_ball; cbn [speed_y].
    destruct (sign_of_cases (draws (rand g) (cursor (rand g)))) as [-> | ->]; lia.
  - rewrite (Hc eq_refl), bounce_ball; cbn [speed_y].
    destruct (sign_of_cases (draws (rand g) (cursor (rand g)))) as [-> | ->]; lia.
  - rewrite (Hn eq_refl eq_refl); auto.
Qed.

(** C3, as the code has it.  In every state the program reaches the
    horizontal speed of the ball has magnitude 7.  [Ball.update] (the step
    and the bounce off the top and bottom) keeps the magnitude of both
    components, [Ball.reset] sets both to 7, and the paddle collision check
    keeps the magnitude of the horizontal component; a paddle hit adds [1]
    or [-1] to the vertical component, so the vertical magnitude moves away
    from 7 by one unit per hit. *)
Theorem ball_speed_magnitude :
  (forall g, reachable g -> Z.abs (speed_x (ball g)) = 7) /\
  (forall b, Z.abs (speed_x (Ball_update b)) = Z.abs (speed_x b) /\
             Z.abs (speed_y (Ball_update b)) = Z.abs (speed_y b)) /\
  (forall b r, Z.abs (speed_x (fst (Ball_reset b r))) = 7 /\
               Z.abs (speed_y (fst (Ball_reset b r))) = 7) /\
  (forall g, Z.abs (speed_x (ball (paddle_collisions g))) =
             Z.abs (speed_x (ball g))) /\
  (forall g, layout g ->
     speed_y (ball (paddle_collisions g)) = speed_y (ball g) \/
     speed_y (ball (paddle_collisions g)) = speed_y (ball g) + 1 \/
     speed_y (ball (paddle_collisions g)) = speed_y (ball g) - 1) /\
  (forall g, layout g -> hits_player g = true \/ hits_comp g = true ->
     speed_y (ball (paddle_collisions g)) = speed_y (ball g) + 1 \/
     speed_y (ball (paddle_collisions g)) = speed_y (ball g) - 1).
Proof.
  split; [ | split; [ | split; [ | split; [ | split ] ] ] ].
  - induction 1 as [ r | f g Hg IH ].
    + change (ball (initial r)) with (fst (Ball_init r)).
      unfold Ball_init; rewrite Ball_reset_fst; apply abs_7_sign.
    + apply loop_iter_speed_x, IH.
  - exact Ball_update_abs.
  - intros b r; rewrite Ball_reset_fst; cbn [speed_x speed_y].
    split; apply abs_7_sign.
  - exact paddle_collisions_speed_x.
  - exact paddle_collisions_speed_y.
  - intros g Hl Hhit; destruct (paddle_collisions_layout g Hl) as (Hp & Hc & _).
    assert (Hb : paddle_collisions g = bounce g) by (destruct Hhit; auto).
    rewrite Hb, bounce_ball; cbn [speed_y].
    destruct (sign_of_cases (draws (rand g) (cursor (rand g)))) as [-> | ->]; lia.
Qed.

Lemma ball_speed_magnitude_witness :
  Z.abs (speed_x (ball (run (repeat hold_up 49) (initial all_minus)))) = 7 /\
  (speed_y (ball (paddle_collisions
     (before_collisions hold_up (run (repeat hold_up 48) (initial all_minus))))) = 6).
Proof.
  destruct ball_speed_magnitude as (Hx & _ & _ & _ & _ & Hy).
  split.
  - apply Hx, reachable_run, reach_initial.
  - destruct (Hy (before_collisions hold_up
                    (run (repeat hold_up 48) (initial all_minus)))) as [H | H].
    + apply layout_before_collisions, reachable_layout, reachable_run, reach_initial.
    + left; vm_compute; reflexivity.
    + vm_compute in H; discriminate H.
    + rewrite H; vm_compute; reflexivity.
Defined.

(** The claim C3 as stated fails: after 49 frames with the up key held and
    all draws [-1] the ball has been hit by the player's paddle and its
    vertical speed is 6. *)
Lemma vertical_speed_not_fixed :
  ~ (forall g, reachable g ->
       Z.abs (speed_x (ball g)) = 7 /\ Z.abs (speed_y (ball g)) = 7).
Proof.
  intros H.
  destruct (H (run (repeat hold_up 49) (initial all_minus))
              (reachable_run _ _ (reach_initial all_minus))) as [_ Hy].
  vm_compute in Hy; discriminate Hy.
Qed.

(** ** Paddles stay on the screen *)

Lemma Paddle_update_keeps_in_field (dy : Z) (p : Paddle) :
  Rect.h (prect p) = PADDLE_HEIGHT ->
  in_field (prect p) -> in_field (prect (Paddle_update dy p)).
Proof.
  intros Hh Hin; assert (Hy := Paddle_update_y dy p Hin).
  destruct (Paddle_update_size dy p) as (_ & _ & Hh').
  revert Hy Hh'; generalize (prect (Paddle_update dy p)); intros r' Hy Hh'.
  destruct Hin as [Ht Hb]; unfold in_field; revert Ht Hb Hy.
  unfold_rect; rewrite Hh', Hh; unfold_consts; lia.
Qed.

(** In every state the program reaches both paddles lie between the top and
    the bottom of the screen. *)
Lemma reachable_paddles_in_field (g : Game) :
  reachable g ->
  in_field (prect (player_paddle g)) /\ in_field (prect (comp_paddle g)).
Proof.
  intros Hg; assert (Hl := reachable_layout g Hg); revert Hl.
  induction Hg as [ r | f g Hg IH ].
  - intros _; unfold in_field; cbn; unfold_consts; lia.
  - intros _; assert (Hl := reachable_layout g Hg).
    destruct (IH Hl) as [Hp Hc].
    destruct Hl as (_ & _ & _ & _ & Hph & _ & _ & Hch).
    unfold loop_iter; destruct (running g); [ | auto ].
    rewrite loop_body_player_paddle, loop_body_comp_paddle; split.
    + apply Paddle_update_keeps_in_field; assumption.
    + unfold computer_ai; destruct (comp_dy _ _); cbn [set_comp_paddle comp_paddle];
        [ apply Paddle_update_keeps_in_field; assumption | assumption ].
Qed.

(** * Further properties of the game *)

(** ** Lives and scores move together *)

Lemma offscreen_check_sums (g : Game) :
  player_lives (offscreen_check g) + comp_score (offscreen_check g) =
    player_lives g + comp_score g /\
  comp_lives (offscreen_check g) + player_score (offscreen_check g) =
    comp_lives g + player_score g.
Proof.
  unfold offscreen_check, check_right, check_left.
  destruct (out_left g).
  - destruct (out_right (reset_ball (score_computer g))); cbn; lia.
  - destruct (out_right g); cbn; lia.
Qed.

Lemma loop_iter_sums (f : Frame) (g : Game) :
  player_lives (loop_iter f g) + comp_score (loop_iter f g) =
    player_lives g + comp_score g /\
  comp_lives (loop_iter f g) + player_score (loop_iter f g) =
    comp_lives g + player_score g.
Proof.
  unfold loop_iter; destruct (running g); [ | split; reflexivity ].
  assert (H1 := counters_fields _ _ (before_offscreen_counters f g)).
  assert (H2 := counters_fields _ _
                  (game_over_check_counters (offscreen_check (before_offscreen f g)))).
  assert (H3 := offscreen_check_sums (before_offscreen f g)).
  unfold loop_body; revert H1 H2 H3.
  generalize (game_over_check (offscreen_check (before_offscreen f g)))
             (offscreen_check (before_offscreen f g)) (before_offscreen f g).
  intros g3 g2 g1; lia.
Qed.

Lemma reachable_sums (g : Game) :
  reachable g ->
  player_lives g + comp_score g = 3 /\ comp_lives g + player_score g = 3.
Proof.
  induction 1 as [ r | f g Hg IH ].
  - split; reflexivity.
  - assert (H := loop_iter_sums f g); revert H.
    generalize (loop_iter f g); intros g' H; lia.
Qed.

(** X1.  In every state the program reaches, the lives a side has lost are
    the points the other side has scored: the player's lives plus the
    computer's score, and the computer's lives plus the player's score, both
    stay at [STARTING_LIVES]. *)
Theorem lives_plus_score_constant (g : Game) :
  reachable g ->
  player_lives g + comp_score g = STARTING_LIVES /\
  comp_lives g + player_score g = STARTING_LIVES.
Proof.
  intros Hg; destruct (reachable_sums g Hg) as [Hp Hc].
  unfold STARTING_LIVES; split; assumption.
Qed.

Lemma lives_plus_score_constant_witness :
  player_lives (run (repeat idle 150) (initial all_minus)) +
    comp_score (run (repeat idle 150) (initial all_minus)) = STARTING_LIVES /\
  comp_lives (run (repeat idle 150) (initial all_minus)) +
    player_score (run (repeat idle 150) (initial all_minus)) = STARTING_LIVES.
Proof.
  apply lives_plus_score_constant, reachable_run, reach_initial.
Defined.

Lemma reachable_lives_le (g : Game) :
  reachable g -> player_lives g <= 3 /\ comp_lives g <= 3.
Proof.
  induction 1 as [ r | f g Hg IH ].
  - cbn; unfold_consts; lia.
  - assert (H := loop_iter_mono f g); revert H.
    generalize (loop_iter f g); intros g' H; lia.
Qed.

(** X2.  In every state the program reaches, neither side has a negative
    number of lives (nor more than three), and while the loop is running
    both sides have at least one life. *)
Theorem lives_never_negative (g : Game) :
  reachable g ->
  0 <= player_lives g <= 3 /\ 0 <= comp_lives g <= 3 /\
  (running g = true -> 1 <= player_lives g /\ 1 <= comp_lives g).
Proof.
  intros Hg.
  destruct (reachable_lives g Hg) as (Hp & Hc & Hrun).
  destruct (reachable_lives_le g Hg) as (Hp3 & Hc3).
  split; [ lia | split; [ lia | ] ].
  intros Hr; specialize (Hrun Hr); lia.
Qed.

Lemma lives_never_negative_witness :
  0 <= player_lives (run (repeat idle 500) (initial all_minus)) <= 3 /\
  0 <= comp_lives (run (repeat idle 500) (initial all_minus)) <= 3.
Proof.
  destruct (lives_never_negative (run (repeat idle 500) (initial all_minus)))
    as (Hp & Hc & _);
    [ apply reachable_run, reach_initial | split; assumption ].
Defined.

(** At most one side loses a life in the off-screen check. *)
Lemma offscreen_check_one_loss (g : Game) :
  0 <= Rect.w (brect (ball g)) ->
  player_lives (offscreen_check g) = player_lives g \/
  comp_lives (offscreen_check g) = comp_lives g.
Proof.
  intros Hw; rewrite (offscreen_check_cases g Hw).
  destruct (out_left g); [ right; reflexivity | ].
  destruct (out_right g); left; reflexivity.
Qed.

Lemma layout_ball_width (g : Game) : layout g -> 0 <= Rect.w (brect (ball g)).
Proof. intros (-> & _); unfold_consts; lia. Qed.

Lemma loop_iter_one_loss (f : Frame) (g : Game) :
  layout g ->
  player_lives (loop_iter f g) = player_lives g \/
  comp_lives (loop_iter f g) = comp_lives g.
Proof.
  intros Hl; unfold loop_iter; destruct (running g); [ | left; reflexivity ].
  assert (Hl1 : layout (before_offscreen f g))
    by (apply layout_paddle_collisions, layout_before_collisions, Hl).
  assert (H1 := counters_fields _ _ (before_offscreen_counters f g)).
  assert (H2 := counters_fields _ _
                  (game_over_check_counters (offscreen_check (before_offscreen f g)))).
  assert (H3 := offscreen_check_one_loss _ (layout_ball_width _ Hl1)).
  unfold loop_body; revert H1 H2 H3.
  generalize (game_over_check (offscreen_check (before_offscreen f g)))
             (offscreen_check (before_offscreen f g)) (before_offscreen f g).
  intros g3 g2 g1; lia.
Qed.

Lemma reachable_not_both_out (g : Game) :
  reachable g -> ~ (player_lives g <= 0 /\ comp_lives g <= 0).
Proof.
  induction 1 as [ r | f g Hg IH ].
  - cbn; unfold_consts; lia.
  - destruct (reachable_lives g Hg) as (Hp & Hc & Hrun).
    assert (H1 := loop_iter_one_loss f g (reachable_layout g Hg)).
    assert (H2 := loop_iter_mono f g).
    unfold loop_iter in *; destruct (running g); [ | exact IH ].
    specialize (Hrun eq_refl); revert H1 H2.
    generalize (loop_body f g); intros g' H1 H2; lia.
Qed.

(** X3.  The two sides are never both out of lives, so the loser shown at
    the end is unambiguous; each score is at most 3 and the two scores add
    up to at most 5. *)
Theorem never_both_out_of_lives (g : Game) :
  reachable g ->
  ~ (player_lives g <= 0 /\ comp_lives g <= 0) /\
  0 <= player_score g <= 3 /\ 0 <= comp_score g <= 3 /\
  player_score g + comp_score g <= 5.
Proof.
  intros Hg.
  assert (Hnb := reachable_not_both_out g Hg).
  destruct (reachable_lives g Hg) as (Hp & Hc & _).
  destruct (reachable_lives_le g Hg) as (Hp3 & Hc3).
  destruct (reachable_sums g Hg) as (Hs1 & Hs2).
  split; [ exact Hnb | lia ].
Qed.

Lemma never_both_out_of_lives_witness :
  player_score (run (repeat idle 500) (initial all_minus)) +
    comp_score (run (repeat idle 500) (initial all_minus)) <= 5.
Proof.
  apply never_both_out_of_lives, reachable_run, reach_initial.
Defined.

(** ** The end of the game *)

(** X4.  When a session without [QUIT] events has ended, the end screen
    names the right loser: it says the player lost exactly when the player
    has no life left, in which case the computer has scored 3 and still has
    a life; otherwise it says the player won, the computer has no life
    left and the player has scored 3. *)
Theorem over_text_after_play (r : Random) (fs : list Frame) :
  Forall (fun f => ev_quit f = false) fs ->
  running (run fs (initial r)) = false ->
  let g := run fs (initial r) in
  (over_text g = "Game Over! You lost!"%string /\
   player_lives g = 0 /\ comp_score g = 3 /\ 0 < comp_lives g) \/
  (over_text g = "Congratulations! You won!"%string /\
   comp_lives g = 0 /\ player_score g = 3 /\ 0 < player_lives g).
Proof.
  intros Hnq Hstop g.
  assert (Hg : reachable g) by apply reachable_run, reach_initial.
  assert (Hout : player_lives g <= 0 \/ comp_lives g <= 0).
  { destruct (run_stopped_cause fs (initial r) eq_refl Hstop) as [Hq | Hl];
      [ | exact Hl ].
    apply Exists_exists in Hq; destruct Hq as (f & Hin & Hq).
    rewrite Forall_forall in Hnq; specialize (Hnq f Hin); congruence. }
  destruct (reachable_lives g Hg) as (Hp & Hc & _).
  assert (Hone := reachable_not_both_out g Hg).
  destruct (reachable_sums g Hg) as (Hs1 & Hs2).
  clearbody g; unfold over_text.
  destruct (Z.leb_spec (player_lives g) 0); [ left | right ];
    (split; [ reflexivity | lia ]).
Qed.

Lemma over_text_after_play_witness :
  over_text (run (repeat idle 200) (initial all_minus)) =
    "Game Over! You lost!"%string.
Proof.
  destruct (over_text_after_play all_minus (repeat idle 200)) as [H | H].
  - apply Forall_forall; intros f Hin; apply repeat_spec in Hin; subst f;
      reflexivity.
  - vm_compute; reflexivity.
  - apply H.
  - destruct H as (_ & H & _); vm_compute in H; discriminate H.
Defined.

(** X5.  A [QUIT] event ends the loop in the frame that reads it, whatever
    the counters are; if the player still has a life then, the end screen
    says that the player won, also when the computer has all its lives. *)
Theorem over_text_after_quit (f : Frame) (g : Game) :
  running g = true ->
  ev_quit f = true ->
  running (loop_iter f g) = false /\
  (0 < player_lives (loop_iter f g) ->
   over_text (loop_iter f g) = "Congratulations! You won!"%string) /\
  (forall fs, run fs (loop_iter f g) = loop_iter f g).
Proof.
  intros Hg Hq.
  assert (Hstop : running (loop_iter f g) = false).
  { unfold loop_iter; rewrite Hg, loop_body_running, Hg, Hq; reflexivity. }
  split; [ exact Hstop | split ].
  - generalize (loop_iter f g); intros g' Hp; unfold over_text.
    destruct (Z.leb_spec (player_lives g') 0); [ lia | reflexivity ].
  - intros fs; apply run_stopped, Hstop.
Qed.

Lemma over_text_after_quit_witness :
  running (loop_iter quit_now (initial all_minus)) = false /\
  over_text (loop_iter quit_now (initial all_minus)) =
    "Congratulations! You won!"%string /\
  comp_lives (loop_iter quit_now (initial all_minus)) = 3.
Proof.
  destruct (over_text_after_quit quit_now (initial all_minus))
    as (Hstop & Htext & _); [ reflexivity | reflexivity | ].
  split; [ exact Hstop | split; [ | vm_compute; reflexivity ] ].
  apply Htext; vm_compute; reflexivity.
Defined.

(** ** Where the ball can be *)

Lemma colliderect_positive (a b : Rect.t) :
  0 < Rect.w a -> 0 < Rect.h a -> 0 < Rect.w b -> 0 < Rect.h b ->
  (Rect.colliderect a b = true <->
   Rect.x a < Rect.x b + Rect.w b /\ Rect.y a < Rect.y b + Rect.h b /\
   Rect.x b < Rect.x a + Rect.w a /\ Rect.y b < Rect.y a + Rect.h a).
Proof.
  intros Hwa Hha Hwb Hhb; unfold Rect.colliderect.
  destruct (Z.eqb_spec (Rect.w a) 0); [ lia | ].
  destruct (Z.eqb_spec (Rect.h a) 0); [ lia | ].
  destruct (Z.eqb_spec (Rect.w b) 0); [ lia | ].
  destruct (Z.eqb_spec (Rect.h b) 0); [ lia | ].
  cbn [orb]; rewrite !andb_true_iff, !Z.ltb_lt; lia.
Qed.

Lemma collide_player_window (g : Game) :
  layout g ->
  (Rect.colliderect (brect (ball g)) (prect (player_paddle g)) = true <->
   10 < Rect.x (brect (ball g)) < 50 /\
   Rect.y (prect (player_paddle g)) - 20 < Rect.y (brect (ball g))
     < Rect.y (prect (player_paddle g)) + 100).
Proof.
  unfold layout; unfold_consts; intros (Hw & Hh & Hx & Hpw & Hph & _).
  rewrite colliderect_positive by lia; rewrite Hw, Hh, Hx, Hpw, Hph; lia.
Qed.

Lemma collide_comp_window (g : Game) :
  layout g ->
  (Rect.colliderect (brect (ball g)) (prect (comp_paddle g)) = true <->
   730 < Rect.x (brect (ball g)) < 770 /\
   Rect.y (prect (comp_paddle g)) - 20 < Rect.y (brect (ball g))
     < Rect.y (prect (comp_paddle g)) + 100).
Proof.
  unfold layout; unfold_consts;
    intros (Hw & Hh & _ & _ & _ & Hx & Hpw & Hph).
  rewrite colliderect_positive by lia; rewrite Hw, Hh, Hx, Hpw, Hph; lia.
Qed.

(** X6.  With the configured sprites, the collision test of the player's
    paddle succeeds exactly when the ball moves left, its left edge is
    strictly between 10 and 50 and its top edge strictly between the
    paddle's top minus 20 and the paddle's top plus 100; for the computer's
    paddle the ball must move right with its left edge strictly between 730
    and 770.  Touching edges do not count as a hit. *)
Theorem paddle_hit_windows (g : Game) :
  layout g ->
  (hits_player g = true <->
   speed_x (ball g) < 0 /\
   10 < Rect.x (brect (ball g)) < 50 /\
   Rect.y (prect (player_paddle g)) - 20 < Rect.y (brect (ball g))
     < Rect.y (prect (player_paddle g)) + 100) /\
  (hits_comp g = true <->
   speed_x (ball g) > 0 /\
   730 < Rect.x (brect (ball g)) < 770 /\
   Rect.y (prect (comp_paddle g)) - 20 < Rect.y (brect (ball g))
     < Rect.y (prect (comp_paddle g)) + 100).
Proof.
  intros Hl; split.
  - rewrite hits_player_iff, (collide_player_window g Hl); tauto.
  - rewrite hits_comp_iff, (collide_comp_window g Hl); tauto.
Qed.

Lemma paddle_hit_windows_witness :
  hits_player
    (set_ball (mkBall (Rect.make 49 349 20 20) (-7) 7) (initial all_minus)) = true /\
  hits_player
    (set_ball (mkBall (Rect.make 50 300 20 20) (-7) 7) (initial all_minus)) = false.
Proof.
  split.
  - apply paddle_hit_windows; [ apply (layout_initial all_minus) | ].
    vm_compute; repeat split.
  - destruct (paddle_hit_windows
                (set_ball (mkBall (Rect.make 50 300 20 20) (-7) 7)
                          (initial all_minus))
                (layout_initial all_minus)) as [[H _] _].
    destruct (hits_player _); [ | reflexivity ].
    specialize (H eq_refl); vm_compute in H.
    destruct H as (_ & (_ & H) & _); discriminate H.
Defined.

Lemma paddle_collisions_layout_eq (g : Game) :
  layout g ->
  paddle_collisions g = if hits_player g || hits_comp g then bounce g else g.
Proof.
  intros Hl; destruct (paddle_collisions_layout g Hl) as (Hp & Hc & Hn).
  destruct (hits_player g); [ apply Hp; reflexivity | ].
  destruct (hits_comp g); [ apply Hc | apply Hn ]; reflexivity.
Qed.

(** A ball that a paddle has just hit is on the screen. *)
Lemma hit_not_out (g : Game) :
  layout g ->
  hits_player g || hits_comp g = true ->
  out_left (paddle_collisions g) = false /\
  out_right (paddle_collisions g) = false.
Proof.
  intros Hl Hhit.
  assert (Hx : 10 < Rect.x (brect (ball g)) < 770).
  { apply orb_true_iff in Hhit; destruct Hhit as [H | H].
    - apply hits_player_iff in H; destruct H as [H _].
      apply (collide_player_window g Hl) in H; lia.
    - apply hits_comp_iff in H; destruct H as [H _].
      apply (collide_comp_window g Hl) in H; lia. }
  unfold out_left, out_right.
  destruct (paddle_collisions_paddles g) as (_ & _ & ->).
  destruct Hl as (Hw & _); unfold_rect; rewrite Hw; unfold_consts.
  split.
  - destruct (Z.ltb_spec (Rect.x (brect (ball g)) + 20) 0); [ lia | reflexivity ].
  - destruct (Z.gtb_spec (Rect.x (brect (ball g))) 800); [ lia | reflexivity ].
Qed.

(** X7.  A paddle hit and a point never fall in the same frame: in a frame
    in which the collision check bounces the ball, the off-screen check does
    nothing, so no counter changes and the ball the frame ends with is the
    bounced one. *)
Theorem hit_excludes_score (f : Frame) (g : Game) :
  layout g ->
  let g1 := before_collisions f g in
  hits_player g1 = true \/ hits_comp g1 = true ->
  counters (loop_body f g) = counters g /\
  ball (loop_body f g) = ball (bounce g1) /\
  offscreen_check (paddle_collisions g1) = bounce g1.
Proof.
  intros Hl g1 Hhit.
  assert (Hl1 : layout g1) by apply layout_before_collisions, Hl.
  assert (Hor : hits_player g1 || hits_comp g1 = true)
    by (apply orb_true_iff; exact Hhit).
  assert (Hc1 : counters g1 = counters g) by apply before_collisions_counters.
  assert (Hpc : paddle_collisions g1 = bounce g1)
    by (rewrite (paddle_collisions_layout_eq g1 Hl1), Hor; reflexivity).
  destruct (hit_not_out g1 Hl1 Hor) as [Hol Hor'].
  assert (Hoc : offscreen_check (paddle_collisions g1) = paddle_collisions g1).
  { rewrite offscreen_check_cases, Hol, Hor';
      [ reflexivity | apply layout_ball_width, layout_paddle_collisions, Hl1 ]. }
  assert (Hb : ball (loop_body f g) = ball (offscreen_check (paddle_collisions g1)))
    by apply game_over_check_fields.
  assert (Hc : counters (loop_body f g) =
               counters (offscreen_check (paddle_collisions g1)))
    by apply game_over_check_counters.
  clearbody g1.
  rewrite Hc, Hb, Hoc, Hpc; split; [ | split; reflexivity ].
  rewrite <- Hc1; reflexivity.
Qed.

Lemma hit_excludes_score_witness :
  counters (loop_body hold_up (run (repeat hold_up 48) (initial all_minus))) =
    (0, 3, 0, 3).
Proof.
  destruct (hit_excludes_score hold_up
              (run (repeat hold_up 48) (initial all_minus))) as (Hc & _).
  - apply reachable_layout, reachable_run, reach_initial.
  - left; vm_compute; reflexivity.
  - rewrite Hc; vm_compute; reflexivity.
Defined.

Lemma offscreen_check_ball_x (g : Game) :
  layout g ->
  - BALL_SIZE <= Rect.x (brect (ball (offscreen_check g))) <= SCREEN_WIDTH.
Proof.
  intros Hl; assert (Hw := layout_ball_width g Hl).
  rewrite (offscreen_check_cases g Hw).
  destruct Hl as (Hbw & _).
  destruct (out_left g) eqn:Hol; [ | destruct (out_right g) eqn:Hor ].
  - rewrite (proj1 (proj2 (reset_ball_fields _))), Ball_reset_fst.
    cbn [brect score_computer ball]; unfold_rect; rewrite Hbw; unfold_consts.
    change (800 / 2) with 400; change (20 / 2) with 10; lia.
  - rewrite (proj1 (proj2 (reset_ball_fields _))), Ball_reset_fst.
    cbn [brect score_player ball]; unfold_rect; rewrite Hbw; unfold_consts.
    change (800 / 2) with 400; change (20 / 2) with 10; lia.
  - unfold out_left, out_right in Hol, Hor; unfold_rect.
    rewrite Hbw in Hol; unfold_consts.
    apply Z.ltb_ge in Hol; rewrite Z.gtb_ltb in Hor; apply Z.ltb_ge in Hor; lia.
Qed.

(** X8.  At the loop test the ball is never wholly off the screen
    horizontally: its left edge is between [- BALL_SIZE] and
    [SCREEN_WIDTH].  A ball that leaves the screen is put back to the centre
    in the frame in which it leaves. *)
Theorem ball_on_screen_between_frames (g : Game) :
  reachable g ->
  - BALL_SIZE <= Rect.x (brect (ball g)) <= SCREEN_WIDTH /\
  out_left g = false /\ out_right g = false.
Proof.
  intros Hg.
  assert (Hx : - BALL_SIZE <= Rect.x (brect (ball g)) <= SCREEN_WIDTH).
  { induction Hg as [ r | f g Hg IH ].
    - cbn; unfold_consts; lia.
    - unfold loop_iter; destruct (running g); [ | exact IH ].
      unfold loop_body.
      rewrite (proj1 (proj2 (proj2 (game_over_check_fields _)))).
      apply offscreen_check_ball_x.
      apply layout_paddle_collisions, layout_before_collisions,
        reachable_layout, Hg. }
  split; [ exact Hx | ].
  destruct (reachable_layout g Hg) as (Hw & _).
  unfold out_left, out_right; unfold_rect; rewrite Hw.
  revert Hx; unfold_consts; intros Hx; split.
  - destruct (Z.ltb_spec (Rect.x (brect (ball g)) + 20) 0); [ lia | reflexivity ].
  - destruct (Z.gtb_spec (Rect.x (brect (ball g))) 800); [ lia | reflexivity ].
Qed.

Lemma ball_on_screen_between_frames_witness :
  - BALL_SIZE <= Rect.x (brect (ball (run (repeat idle 59) (initial all_minus))))
    <= SCREEN_WIDTH.
Proof.
  apply ball_on_screen_between_frames, reachable_run, reach_initial.
Defined.

Lemma reachable_speed_x (g : Game) :
  reachable g -> speed_x (ball g) = 7 \/ speed_x (ball g) = -7.
Proof.
  intros Hg.
  assert (H : Z.abs (speed_x (ball g)) = 7).
  { induction Hg as [ r | f g Hg IH ].
    - change (ball (initial r)) with (fst (Ball_init r)).
      unfold Ball_init; rewrite Ball_reset_fst; apply abs_7_sign.
    - apply loop_iter_speed_x, IH. }
  lia.
Qed.

(** X9.  The ball cannot jump over a paddle's column in one step: in a
    reachable state, a ball whose left edge is at or right of the player's
    paddle's right edge (50) is, after [Ball.update], still there or inside
    the column in which the collision test can succeed (left edge strictly
    between 10 and 50); and the same on the computer's side with 730
    and 770. *)
Theorem ball_cannot_skip_paddle_column (g : Game) :
  reachable g ->
  let x := Rect.x (brect (ball g)) in
  let x' := Rect.x (brect (Ball_update (ball g))) in
  (50 <= x -> 50 <= x' \/ 10 < x' < 50) /\
  (x <= 730 -> x' <= 730 \/ 730 < x' < 770).
Proof.
  intros Hg x x'; subst x x'.
  rewrite Ball_update_rect; cbn [Rect.x].
  destruct (reachable_speed_x g Hg) as [-> | ->]; lia.
Qed.

Lemma ball_cannot_skip_paddle_column_witness :
  50 <= Rect.x (brect (Ball_update (ball (run (repeat idle 48) (initial all_minus))))) \/
  10 < Rect.x (brect (Ball_update (ball (run (repeat idle 48) (initial all_minus))))) < 50.
Proof.
  apply (ball_cannot_skip_paddle_column (run (repeat idle 48) (initial all_minus))).
  - apply reachable_run, reach_initial.
  - vm_compute; discriminate.
Defined.

(** ** The random source *)

Lemma before_collisions_rand (f : Frame) (g : Game) :
  rand (before_collisions f g) = rand g.
Proof.
  unfold before_collisions, update_ball, computer_ai, player_input,
    process_events.
  destruct (ev_quit f); cbn [set_running set_player_paddle ball comp_paddle];
    destruct (comp_dy _ _); reflexivity.
Qed.

Lemma bounce_rand (g : Game) :
  rand (bounce g) = mkRandom (draws (rand g)) (S (cursor (rand g))).
Proof. reflexivity. Qed.

Lemma reset_ball_rand (g : Game) :
  rand (reset_ball g) = mkRandom (draws (rand g)) (S (S (cursor (rand g)))).
Proof. reflexivity. Qed.

(** The draws one pass takes, on the state the collision check starts
    from. *)
Lemma collisions_and_offscreen_rand (g1 : Game) :
  layout g1 ->
  rand (offscreen_check (paddle_collisions g1)) =
    mkRandom (draws (rand g1))
      (cursor (rand g1) +
       (if hits_player g1 || hits_comp g1 then 1
        else if out_left g1 || out_right g1 then 2 else 0)%nat).
Proof.
  intros Hl.
  destruct (hits_player g1 || hits_comp g1) eqn:Hhit.
  - destruct (hit_not_out g1 Hl Hhit) as [Hol Hor].
    rewrite offscreen_check_cases, Hol, Hor
      by apply layout_ball_width, layout_paddle_collisions, Hl.
    rewrite (paddle_collisions_layout_eq g1 Hl), Hhit, bounce_rand.
    f_equal; lia.
  - rewrite (paddle_collisions_layout_eq g1 Hl), Hhit.
    rewrite offscreen_check_cases by apply layout_ball_width, Hl.
    destruct (out_left g1); [ | destruct (out_right g1) ]; cbn [orb].
    + rewrite reset_ball_rand; cbn [score_computer rand]; f_equal; lia.
    + rewrite reset_ball_rand; cbn [score_player rand]; f_equal; lia.
    + destruct (rand g1); cbn [draws cursor]; f_equal; lia.
Qed.

(** X10.  One pass through the loop reads the random source only for a
    paddle hit (one draw) or for the reset after a point (two draws), never
    for both: with [g1] the state at the collision check, the source after
    the pass is the one before it advanced by 1 when a paddle is hit, by 2
    when the ball has left the screen, and by 0 otherwise. *)
Theorem draws_per_frame (f : Frame) (g : Game) :
  layout g ->
  let g1 := before_collisions f g in
  rand (loop_body f g) =
    mkRandom (draws (rand g))
      (cursor (rand g) +
       (if hits_player g1 || hits_comp g1 then 1
        else if out_left g1 || out_right g1 then 2 else 0)%nat).
Proof.
  intros Hl g1.
  assert (H := collisions_and_offscreen_rand g1 (layout_before_collisions f g Hl)).
  assert (Hr : rand g1 = rand g) by apply before_collisions_rand.
  assert (Hg : rand (loop_body f g) = rand (offscreen_check (paddle_collisions g1)))
    by apply game_over_check_fields.
  clearbody g1; rewrite Hg, H, Hr; reflexivity.
Qed.

Lemma draws_per_frame_witness :
  cursor (rand (loop_body hold_up (run (repeat hold_up 48) (initial all_minus)))) = 3%nat /\
  cursor (rand (loop_body idle (run (repeat idle 58) (initial all_minus)))) = 4%nat /\
  cursor (rand (loop_body idle (initial all_minus))) = 2%nat.
Proof.
  split; [ | split ].
  - rewrite (draws_per_frame hold_up (run (repeat hold_up 48) (initial all_minus)));
      [ vm_compute; reflexivity
      | apply reachable_layout, reachable_run, reach_initial ].
  - rewrite (draws_per_frame idle (run (repeat idle 58) (initial all_minus)));
      [ vm_compute; reflexivity
      | apply reachable_layout, reachable_run, reach_initial ].
  - rewrite (draws_per_frame idle (initial all_minus));
      [ vm_compute; reflexivity | apply layout_initial ].
Defined.

(** ** More on the paddles *)

(** On mathematical integers the update is a clamp, and it leaves the
    horizontal position, the size and the role of the paddle alone. *)
Lemma Paddle_update_is_clamp (dy : Z) (p : Paddle) :
  Rect.y (prect (Paddle_update dy p)) =
    Z.min (SCREEN_HEIGHT - Rect.h (prect p)) (Z.max 0 (Rect.y (prect p) + dy)) /\
  Rect.x (prect (Paddle_update dy p)) = Rect.x (prect p) /\
  Rect.w (prect (Paddle_update dy p)) = Rect.w (prect p) /\
  Rect.h (prect (Paddle_update dy p)) = Rect.h (prect p) /\
  is_player (Paddle_update dy p) = is_player p.
Proof.
  split; [ | split; [ | split; [ | split ] ] ];
    try apply Paddle_update_size; [ | reflexivity ].
  unfold Paddle_update; cbn [prect].
  repeat split_if; unfold_rect; unfold_consts; lia.
Qed.

(** On mathematical integers the updated paddle lies on the screen exactly
    when it is not taller than the screen. *)
Lemma Paddle_update_in_field_iff (dy : Z) (p : Paddle) :
  in_field (prect (Paddle_update dy p)) <-> Rect.h (prect p) <= SCREEN_HEIGHT.
Proof.
  unfold in_field, Paddle_update; cbn [prect].
  repeat split_if; unfold_rect; unfold_consts; lia.
Qed.


(** On mathematical integers a paddle on the screen never moves farther
    than asked nor in the other direction, and a zero displacement leaves it
    as it is. *)
Lemma Paddle_update_bounded_move (dy : Z) (p : Paddle) :
  in_field (prect p) ->
  let y := Rect.y (prect p) in
  let y' := Rect.y (prect (Paddle_update dy p)) in
  Z.abs (y' - y) <= Z.abs dy /\
  (0 <= dy -> y <= y' <= y + dy) /\
  (dy <= 0 -> y + dy <= y' <= y) /\
  Paddle_update 0 p = p.
Proof.
  intros Hin y y'; subst y y'.
  rewrite (Paddle_update_y dy p Hin).
  destruct Hin as [Ht Hb]; revert Ht Hb; unfold_rect; unfold_consts.
  intros Ht Hb; split; [ lia | split; [ lia | split; [ lia | ] ] ].
  unfold Paddle_update; destruct p as [pl [x y w h]]; cbn in *.
  unfold_rect; unfold_consts.
  rewrite Z.add_0_r.
  destruct (Z.ltb_spec y 0); [ lia | ].
  cbn [Rect.y Rect.h].
  destruct (Z.gtb_spec (y + h) 600); [ lia | reflexivity ].
Qed.


(** X14.  The computer's paddle never moves away from the ball: for a
    paddle on the screen, the distance between the two vertical centres
    after the computer's move is at most the distance before it, or at most
    [COMP_SPEED - 1] when the paddle was nearer than that; and a paddle that
    is at least [COMP_SPEED] away from the ball and from the edge of the
    screen in the direction of the ball gets nearer by exactly
    [COMP_SPEED]. *)
Theorem computer_ai_closes_in (g : Game) :
  in_field (prect (comp_paddle g)) ->
  let bc := Rect.centery (brect (ball g)) in
  let pc := Rect.centery (prect (comp_paddle g)) in
  let pc' := Rect.centery (prect (comp_paddle (computer_ai g))) in
  Z.abs (bc - pc') <= Z.max (Z.abs (bc - pc)) (COMP_SPEED - 1) /\
  (bc + COMP_SPEED <= pc -> COMP_SPEED <= Rect.top (prect (comp_paddle g)) ->
     pc' = pc - COMP_SPEED) /\
  (pc + COMP_SPEED <= bc ->
   Rect.bottom (prect (comp_paddle g)) + COMP_SPEED <= SCREEN_HEIGHT ->
     pc' = pc + COMP_SPEED).
Proof.
  intros Hin bc pc pc'; subst bc pc pc'.
  unfold computer_ai, comp_dy.
  destruct (Z.ltb_spec (Rect.centery (brect (ball g)))
                       (Rect.centery (prect (comp_paddle g)))) as [Hlt | Hge];
    [ | destruct (Z.gtb_spec (Rect.centery (brect (ball g)))
                             (Rect.centery (prect (comp_paddle g)))) as [Hgt | Hle] ];
    cbn [set_comp_paddle comp_paddle].
  - assert (Hy := Paddle_update_y (- COMP_SPEED) _ Hin).
    destruct (Paddle_update_size (- COMP_SPEED) (comp_paddle g)) as (_ & _ & Hh).
    revert Hy Hh Hlt; destruct Hin as [Ht Hb]; revert Ht Hb.
    generalize (prect (Paddle_update (- COMP_SPEED) (comp_paddle g))); intros r'.
    unfold_rect; unfold_consts; intros Ht Hb Hy Hh Hlt; rewrite Hh; lia.
  - assert (Hy := Paddle_update_y COMP_SPEED _ Hin).
    destruct (Paddle_update_size COMP_SPEED (comp_paddle g)) as (_ & _ & Hh).
    revert Hy Hh Hgt; destruct Hin as [Ht Hb]; revert Ht Hb.
    generalize (prect (Paddle_update COMP_SPEED (comp_paddle g))); intros r'.
    unfold_rect; unfold_consts; intros Ht Hb Hy Hh Hgt; rewrite Hh; lia.
  - unfold_consts; lia.
Qed.

Lemma computer_ai_closes_in_witness :
  Rect.centery (prect (comp_paddle (computer_ai
     (run (repeat idle 10) (initial all_minus))))) = 240.
Proof.
  destruct (computer_ai_closes_in (run (repeat idle 10) (initial all_minus)))
    as (_ & Hup & _).
  - split; vm_compute; discriminate.
  - rewrite Hup; vm_compute; [ reflexivity | discriminate | discriminate ].
Defined.

(** X15.  In every state the program reaches the two paddles are where and
    what they were made: the player's paddle at [x = 30] and the computer's
    at [x = 750], both 20 wide and 100 high, and both between the top and
    the bottom of the screen; the ball is 20 by 20. *)
Theorem sprites_keep_their_place (g : Game) :
  reachable g ->
  layout g /\
  0 <= Rect.y (prect (player_paddle g)) <= SCREEN_HEIGHT - PADDLE_HEIGHT /\
  0 <= Rect.y (prect (comp_paddle g)) <= SCREEN_HEIGHT - PADDLE_HEIGHT.
Proof.
  intros Hg; assert (Hl := reachable_layout g Hg).
  destruct (reachable_paddles_in_field g Hg) as [[Hp1 Hp2] [Hc1 Hc2]].
  split; [ exact Hl | ].
  destruct Hl as (_ & _ & _ & _ & Hph & _ & _ & Hch).
  revert Hp1 Hp2 Hc1 Hc2; unfold_rect; rewrite Hph, Hch; lia.
Qed.

Lemma sprites_keep_their_place_witness :
  0 <= Rect.y (prect (player_paddle (run (repeat hold_up 100) (initial all_minus))))
    <= SCREEN_HEIGHT - PADDLE_HEIGHT.
Proof.
  apply (sprites_keep_their_place (run (repeat hold_up 100) (initial all_minus))).
  apply reachable_run, reach_initial.
Defined.

(** ** [Paddle.update] on C ints *)

Lemma wrap_int_id (z : Z) : int_range z -> wrap_int z = z.
Proof.
  unfold int_range, wrap_int, INT_MIN, INT_MAX; intros H.
  rewrite Z.mod_small; lia.
Qed.

Lemma in_int_true (z : Z) : in_int z = true <-> int_range z.
Proof.
  unfold in_int, int_range; rewrite andb_true_iff, !Z.leb_le; reflexivity.
Qed.

Lemma in_int_false (z : Z) : in_int z = false <-> ~ int_range z.
Proof.
  rewrite <- in_int_true; destruct (in_int z); split; intros H.
  - discriminate H.
  - exfalso; apply H; reflexivity.
  - discriminate.
  - reflexivity.
Qed.

(** As long as the new position and the bottom it gives fit a C int, the
    update on C ints is the update on mathematical integers. *)
Lemma Paddle_update_cint_agrees (dy : Z) (p : Paddle) :
  rect_in_int (prect p) ->
  int_range (Rect.y (prect p) + dy) ->
  int_range (Rect.y (prect p) + dy + Rect.h (prect p)) ->
  Paddle_update_cint dy p = Some (Paddle_update dy p).
Proof.
  intros (_ & _ & _ & Hh) Hv Hb.
  unfold Paddle_update_cint, Paddle_update.
  rewrite (proj2 (in_int_true _) Hv); f_equal; f_equal.
  revert Hh Hv Hb; unfold int_range, INT_MIN, INT_MAX; unfold_rect; unfold_consts.
  intros Hh Hv Hb.
  destruct (Z.ltb_spec (Rect.y (prect p) + dy) 0); cbn [Rect.y Rect.h].
  - rewrite (wrap_int_id (0 + Rect.h (prect p)))
      by (unfold int_range, INT_MIN, INT_MAX; lia).
    destruct (Z.gtb_spec (0 + Rect.h (prect p)) 600); [ | reflexivity ].
    rewrite wrap_int_id by (unfold int_range, INT_MIN, INT_MAX; lia).
    reflexivity.
  - rewrite (wrap_int_id (Rect.y (prect p) + dy + Rect.h (prect p)))
      by (unfold int_range, INT_MIN, INT_MAX; lia).
    destruct (Z.gtb_spec (Rect.y (prect p) + dy + Rect.h (prect p)) 600);
      [ | reflexivity ].
    rewrite wrap_int_id by (unfold int_range, INT_MIN, INT_MAX; lia).
    reflexivity.
Qed.

Lemma Paddle_update_cint_raises (dy : Z) (p : Paddle) :
  ~ int_range (Rect.y (prect p) + dy) -> Paddle_update_cint dy p = None.
Proof.
  intros H; unfold Paddle_update_cint.
  rewrite (proj2 (in_int_false _) H); reflexivity.
Qed.

(** A paddle of the configured size on the screen, updated with one of the
    displacements the loop uses. *)
Lemma Paddle_update_cint_small (dy : Z) (p : Paddle) :
  int_range (Rect.x (prect p)) -> int_range (Rect.w (prect p)) ->
  Rect.h (prect p) = PADDLE_HEIGHT ->
  in_field (prect p) ->
  -7 <= dy <= 7 ->
  Paddle_update_cint dy p = Some (Paddle_update dy p).
Proof.
  intros Hx Hw Hh [Ht Hb] Hdy; revert Ht Hb; unfold_rect; rewrite Hh.
  unfold_consts; intros Ht Hb.
  apply Paddle_update_cint_agrees;
    unfold rect_in_int, int_range, INT_MIN, INT_MAX in *; rewrite ?Hh;
    unfold_consts; lia.
Qed.

Lemma player_dy_small (f : Frame) : -7 <= player_dy f <= 7.
Proof.
  unfold player_dy; unfold_consts; destruct (key_up f), (key_down f); lia.
Qed.

Lemma comp_dy_small (b : Ball) (p : Paddle) (dy : Z) :
  comp_dy b p = Some dy -> -7 <= dy <= 7.
Proof.
  unfold comp_dy; unfold_consts.
  destruct (_ <? _); [ intros H; injection H as <-; lia | ].
  destruct (_ >? _); [ intros H; injection H as <-; lia | discriminate ].
Qed.

(** Every call of [Paddle.update] that a pass through the loop makes stays
    within the C ints: the update on C ints returns, and returns what the
    loop as embedded here computes. *)
Lemma reachable_updates_in_range (f : Frame) (g : Game) :
  reachable g ->
  Paddle_update_cint (player_dy f) (player_paddle g) =
    Some (Paddle_update (player_dy f) (player_paddle g)) /\
  (forall dy, comp_dy (ball g) (comp_paddle g) = Some dy ->
     Paddle_update_cint dy (comp_paddle g) =
       Some (Paddle_update dy (comp_paddle g))).
Proof.
  intros Hg.
  destruct (reachable_paddles_in_field g Hg) as [Hp Hc].
  destruct (reachable_layout g Hg)
    as (_ & _ & Hpx & Hpw & Hph & Hcx & Hcw & Hch).
  split.
  - apply Paddle_update_cint_small; try assumption;
      [ rewrite Hpx | rewrite Hpw | apply player_dy_small ];
      unfold int_range, INT_MIN, INT_MAX; unfold_consts; lia.
  - intros dy Hdy; apply Paddle_update_cint_small; try assumption;
      [ rewrite Hcx | rewrite Hcw | apply (comp_dy_small _ _ _ Hdy) ];
      unfold int_range, INT_MIN, INT_MAX; unfold_consts; lia.
Qed.

(** C5, as the code has it.  For a paddle that is not taller than the
    screen and a displacement that keeps the new position [y + dy] and the
    bottom [y + dy + h] within the C ints of [pygame.Rect], [Paddle.update]
    returns with the paddle's top bound at least 0 and its bottom bound at
    most [SCREEN_HEIGHT]; a displacement that takes [y + dy] out of that
    range makes the update raise instead.  Every update a pass through the
    loop makes is within the range, so after every pass both paddles lie
    between the top and the bottom of the screen. *)
Theorem Paddle_update_cint_in_field (dy : Z) (p : Paddle) :
  rect_in_int (prect p) ->
  Rect.h (prect p) <= SCREEN_HEIGHT ->
  (int_range (Rect.y (prect p) + dy) ->
   int_range (Rect.y (prect p) + dy + Rect.h (prect p)) ->
   exists p', Paddle_update_cint dy p = Some p' /\
              0 <= Rect.top (prect p') /\
              Rect.bottom (prect p') <= SCREEN_HEIGHT) /\
  (~ int_range (Rect.y (prect p) + dy) -> Paddle_update_cint dy p = None) /\
  (forall f g, reachable g ->
     (exists pp, Paddle_update_cint (player_dy f) (player_paddle g) = Some pp /\
                 0 <= Rect.top (prect pp) /\
                 Rect.bottom (prect pp) <= SCREEN_HEIGHT) /\
     (forall d, comp_dy (ball g) (comp_paddle g) = Some d ->
        exists cp, Paddle_update_cint d (comp_paddle g) = Some cp /\
                   0 <= Rect.top (prect cp) /\
                   Rect.bottom (prect cp) <= SCREEN_HEIGHT) /\
     in_field (prect (player_paddle (loop_iter f g))) /\
     in_field (prect (comp_paddle (loop_iter f g)))).
Proof.
  intros Hr Hh; split; [ | split ].
  - intros Hv Hb; exists (Paddle_update dy p); split.
    + apply Paddle_update_cint_agrees; assumption.
    + apply Paddle_update_in_field, Hh.
  - apply Paddle_update_cint_raises.
  - intros f g Hg.
    destruct (reachable_updates_in_range f g Hg) as [Hp Hc].
    destruct (reachable_layout g Hg) as (_ & _ & _ & _ & Hph & _ & _ & Hch).
    split; [ | split ].
    + exists (Paddle_update (player_dy f) (player_paddle g)); split; [ exact Hp | ].
      apply Paddle_update_in_field; rewrite Hph; unfold_consts; lia.
    + intros d Hd; exists (Paddle_update d (comp_paddle g)); split;
        [ apply Hc, Hd | ].
      apply Paddle_update_in_field; rewrite Hch; unfold_consts; lia.
    + apply (reachable_paddles_in_field (loop_iter f g)), reach_iter, Hg.
Qed.

Lemma Paddle_update_cint_in_field_witness :
  (exists p', Paddle_update_cint (-1000) (Paddle_init 30 250 true) = Some p' /\
              0 <= Rect.top (prect p') /\
              Rect.bottom (prect p') <= SCREEN_HEIGHT) /\
  Paddle_update_cint 2147483648 (Paddle_init 30 250 true) = None.
Proof.
  destruct (Paddle_update_cint_in_field (-1000) (Paddle_init 30 250 true))
    as (Hin & _).
  - unfold rect_in_int, int_range; vm_compute; intuition discriminate.
  - vm_compute; discriminate.
  - destruct (Paddle_update_cint_in_field 2147483648 (Paddle_init 30 250 true))
      as (_ & Hout & _).
    + unfold rect_in_int, int_range; vm_compute; intuition discriminate.
    + vm_compute; discriminate.
    + split.
      * apply Hin; unfold int_range; vm_compute; intuition discriminate.
      * apply Hout; unfold int_range; vm_compute.
        intros [_ H]; apply H; reflexivity.
Defined.

(** The claim C5 as stated fails: updated with the displacement 2147483397,
    the player's paddle of the initial state ends at [y = 2147483647],
    because the bottom that [rect.bottom] returns has wrapped around and
    the second test does not fire. *)
Lemma Paddle_update_huge_displacement :
  ~ (forall dy p,
       rect_in_int (prect p) -> Rect.h (prect p) <= SCREEN_HEIGHT ->
       exists p', Paddle_update_cint dy p = Some p' /\
                  0 <= Rect.top (prect p') /\
                  Rect.bottom (prect p') <= SCREEN_HEIGHT).
Proof.
  intros H.
  destruct (H 2147483397 (player_paddle (initial all_minus)))
    as (p' & Hp' & _ & Hb).
  - unfold rect_in_int, int_range; vm_compute; intuition discriminate.
  - vm_compute; discriminate.
  - vm_compute in Hp'; injection Hp' as <-.
    vm_compute in Hb; apply Hb; reflexivity.
Qed.

(** X11.  Within the C ints [Paddle.update] is a clamp: when [y + dy] and
    [y + dy + h] fit a C int, the update returns, the new vertical position
    is the old one plus the displacement, raised to 0 when below it and then
    lowered to [SCREEN_HEIGHT] minus the paddle's height when above it, and
    the horizontal position, the size and the role of the paddle are
    unchanged. *)
Theorem Paddle_update_cint_is_clamp (dy : Z) (p : Paddle) :
  rect_in_int (prect p) ->
  int_range (Rect.y (prect p) + dy) ->
  int_range (Rect.y (prect p) + dy + Rect.h (prect p)) ->
  exists p',
    Paddle_update_cint dy p = Some p' /\
    Rect.y (prect p') =
      Z.min (SCREEN_HEIGHT - Rect.h (prect p)) (Z.max 0 (Rect.y (prect p) + dy)) /\
    Rect.x (prect p') = Rect.x (prect p) /\
    Rect.w (prect p') = Rect.w (prect p) /\
    Rect.h (prect p') = Rect.h (prect p) /\
    is_player p' = is_player p.
Proof.
  intros Hr Hv Hb; exists (Paddle_update dy p); split.
  - apply Paddle_update_cint_agrees; assumption.
  - apply Paddle_update_is_clamp.
Qed.

Lemma Paddle_update_cint_is_clamp_witness :
  exists p',
    Paddle_update_cint 7 (Paddle_init 30 497 true) = Some p' /\
    Rect.y (prect p') = 500.
Proof.
  destruct (Paddle_update_cint_is_clamp 7 (Paddle_init 30 497 true))
    as (p' & Hp' & Hy & _).
  - unfold rect_in_int, int_range; vm_compute; intuition discriminate.
  - unfold int_range; vm_compute; intuition discriminate.
  - unfold int_range; vm_compute; intuition discriminate.
  - exists p'; split; [ exact Hp' | rewrite Hy; vm_compute; reflexivity ].
Defined.

(** X12.  The bound on the height in C5 is exact: when [y + dy] and
    [y + dy + h] fit a C int, the updated paddle lies between the top and
    the bottom of the screen if and only if it is not taller than the
    screen. *)
Theorem Paddle_update_cint_in_field_iff (dy : Z) (p : Paddle) :
  rect_in_int (prect p) ->
  int_range (Rect.y (prect p) + dy) ->
  int_range (Rect.y (prect p) + dy + Rect.h (prect p)) ->
  exists p',
    Paddle_update_cint dy p = Some p' /\
    (in_field (prect p') <-> Rect.h (prect p) <= SCREEN_HEIGHT).
Proof.
  intros Hr Hv Hb; exists (Paddle_update dy p); split.
  - apply Paddle_update_cint_agrees; assumption.
  - apply Paddle_update_in_field_iff.
Qed.

Lemma Paddle_update_cint_in_field_iff_witness :
  exists p',
    Paddle_update_cint 7 (mkPaddle true (Rect.make 30 0 20 700)) = Some p' /\
    ~ in_field (prect p').
Proof.
  destruct (Paddle_update_cint_in_field_iff 7
              (mkPaddle true (Rect.make 30 0 20 700))) as (p' & Hp' & Hiff).
  - unfold rect_in_int, int_range; vm_compute; intuition discriminate.
  - unfold int_range; vm_compute; intuition discriminate.
  - unfold int_range; vm_compute; intuition discriminate.
  - exists p'; split; [ exact Hp' | ].
    intros H; apply Hiff in H; vm_compute in H; apply H; reflexivity.
Defined.

(** X13.  A paddle that is on the screen, updated with a displacement for
    which [y + dy] and [y + dy + h] fit a C int, never moves farther than
    asked nor in the other direction; and a zero displacement leaves it as
    it is. *)
Theorem Paddle_update_cint_bounded_move (dy : Z) (p : Paddle) :
  rect_in_int (prect p) ->
  in_field (prect p) ->
  int_range (Rect.y (prect p) + dy) ->
  int_range (Rect.y (prect p) + dy + Rect.h (prect p)) ->
  (exists p',
     Paddle_update_cint dy p = Some p' /\
     Z.abs (Rect.y (prect p') - Rect.y (prect p)) <= Z.abs dy /\
     (0 <= dy -> Rect.y (prect p) <= Rect.y (prect p') <= Rect.y (prect p) + dy) /\
     (dy <= 0 -> Rect.y (prect p) + dy <= Rect.y (prect p') <= Rect.y (prect p))) /\
  Paddle_update_cint 0 p = Some p.
Proof.
  intros Hr Hin Hv Hb.
  destruct (Paddle_update_bounded_move dy p Hin) as (Ha & Hup & Hdown & Hid).
  split.
  - exists (Paddle_update dy p); split;
      [ apply Paddle_update_cint_agrees; assumption | auto ].
  - rewrite <- Hid at 2; apply Paddle_update_cint_agrees; [ exact Hr | | ].
    + rewrite Z.add_0_r; apply Hr.
    + rewrite Z.add_0_r; destruct Hr as (_ & Hy & _ & Hh), Hin as [Ht Hbt].
      revert Ht Hbt Hy Hh; unfold int_range, INT_MIN, INT_MAX.
      unfold_rect; unfold_consts; lia.
Qed.

Lemma Paddle_update_cint_bounded_move_witness :
  (exists p',
     Paddle_update_cint (-7) (Paddle_init 30 3 true) = Some p' /\
     Rect.y (prect p') = 0) /\
  Paddle_update_cint 0 (Paddle_init 30 3 true) = Some (Paddle_init 30 3 true).
Proof.
  destruct (Paddle_update_cint_bounded_move (-7) (Paddle_init 30 3 true))
    as ((p' & Hp' & _ & _ & Hdown) & Hid).
  - unfold rect_in_int, int_range; vm_compute; intuition discriminate.
  - split; vm_compute; discriminate.
  - unfold int_range; vm_compute; intuition discriminate.
  - unfold int_range; vm_compute; intuition discriminate.
  - split; [ | exact Hid ].
    exists p'; split; [ exact Hp' | ].
    vm_compute in Hp'; injection Hp' as <-; reflexivity.
Defined.


(** ** The ball between the top and the bottom *)



(** ** How long a round lasts *)

Lemma loop_iter_early (k : Z) (f : Frame) (g : Game) :
  reachable g ->
  0 <= k < 58 ->
  Z.abs (Rect.x (brect (ball g)) - 390) <= 7 * k ->
  Z.abs (Rect.x (brect (ball (loop_iter f g))) - 390) <= 7 * (k + 1) /\
  counters (loop_iter f g) = counters g.
Proof.
  intros Hg Hk Hx; unfold loop_iter.
  destruct (running g); [ | split; [ lia | reflexivity ] ].
  assert (Hl := reachable_layout g Hg).
  assert (Hl1 : layout (before_offscreen f g))
    by apply layout_paddle_collisions, layout_before_collisions, Hl.
  assert (Hr := before_offscreen_ball_rect f g).
  rewrite Ball_update_rect in Hr.
  assert (Hc1 := before_offscreen_counters f g).
  assert (Hb : ball (loop_body f g) = ball (offscreen_check (before_offscreen f g)))
    by apply game_over_check_fields.
  assert (Hc : counters (loop_body f g) =
               counters (offscreen_check (before_offscreen f g)))
    by apply game_over_check_counters.
  assert (Hcases := offscreen_check_cases _ (layout_ball_width _ Hl1)).
  rewrite Hb, Hc; clear Hb Hc.
  revert Hr Hc1 Hcases; unfold out_left, out_right.
  generalize (before_offscreen f g); intros g1 Hr Hc1 Hcases.
  destruct Hl as (Hw & _).
  assert (Hx1 : Z.abs (Rect.x (brect (ball g1)) - 390) <= 7 * (k + 1)).
  { rewrite Hr; cbn [Rect.x]; destruct (reachable_speed_x g Hg) as [-> | ->]; lia. }
  assert (Hw1 : Rect.w (brect (ball g1)) = 20) by (rewrite Hr; exact Hw).
  revert Hcases; unfold_rect; rewrite Hw1; unfold_consts.
  destruct (Z.ltb_spec (Rect.x (brect (ball g1)) + 20) 0); [ lia | ].
  destruct (Z.gtb_spec (Rect.x (brect (ball g1))) 800); [ lia | ].
  intros ->; split; assumption.
Qed.

Lemma run_early (fs : list Frame) :
  forall (k : Z) (g : Game),
    reachable g ->
    0 <= k -> k + Z.of_nat (List.length fs) <= 58 ->
    Z.abs (Rect.x (brect (ball g)) - 390) <= 7 * k ->
    counters (run fs g) = counters g.
Proof.
  induction fs as [ | f fs IH ]; intros k g Hg Hk Hlen Hx; cbn [run].
  - reflexivity.
  - cbn [List.length] in Hlen.
    destruct (loop_iter_early k f g Hg) as [Hx' Hc]; [ lia | exact Hx | ].
    rewrite (IH (k + 1) (loop_iter f g)); [ exact Hc | | | | ];
      [ apply reach_iter, Hg | lia | lia | exact Hx' ].
Qed.

(** X17.  Nobody scores in the first 58 frames of a game: the ball starts
    390 from the left edge and moves 7 per frame, so whatever the keys, the
    events and the draws, after at most 58 frames the scores are 0 and both
    sides have their three lives. *)
Theorem no_point_in_first_58_frames (r : Random) (fs : list Frame) :
  (List.length fs <= 58)%nat ->
  counters (run fs (initial r)) = (0, 3, 0, 3).
Proof.
  intros Hlen.
  rewrite (run_early fs 0 (initial r)); [ reflexivity | | | | ].
  - apply reach_initial.
  - lia.
  - lia.
  - cbn; lia.
Qed.

Lemma no_point_in_first_58_frames_witness :
  counters (run (repeat hold_both 58) (initial all_minus)) = (0, 3, 0, 3).
Proof.
  apply no_point_in_first_58_frames.
  rewrite repeat_length; apply le_n.
Defined.

(** ** Starting the game *)

(** X18.  A sprite whose image cannot be loaded gets a plain surface of the
    configured size, so that without image files the game starts in
    [initial].  With any image files the paddles start at [x = 30] and
    [x = 750] and at [y = 250], the centre of the ball is the centre of the
    screen, its speed is 7 on both axes, the scores are 0 and the lives 3;
    only the sizes of the sprites are those of the images. *)
Theorem start_of_game (a : Assets) (r : Random) :
  start no_assets r = initial r /\
  (player_png a = None -> computer_png a = None -> ball_png a = None ->
   start a r = initial r) /\
  Rect.x (prect (player_paddle (start a r))) = 30 /\
  Rect.x (prect (comp_paddle (start a r))) = 750 /\
  Rect.y (prect (player_paddle (start a r))) = 250 /\
  Rect.y (prect (comp_paddle (start a r))) = 250 /\
  Rect.center (brect (ball (start a r))) = (400, 300) /\
  Z.abs (speed_x (ball (start a r))) = 7 /\
  Z.abs (speed_y (ball (start a r))) = 7 /\
  counters (start a r) = (0, 3, 0, 3) /\
  running (start a r) = true /\
  (forall s, ball_png a = Some s ->
     Rect.w (brect (ball (start a r))) = surf_w s /\
     Rect.h (brect (ball (start a r))) = surf_h s) /\
  (forall s, player_png a = Some s ->
     Rect.w (prect (player_paddle (start a r))) = surf_w s /\
     Rect.h (prect (player_paddle (start a r))) = surf_h s).
Proof.
  assert (Hb : ball (start a r) = fst (Ball_new a r)) by reflexivity.
  split; [ reflexivity | ].
  split; [ destruct a as [p c b]; cbn; intros -> -> ->; reflexivity | ].
  repeat (split; [ reflexivity | ]).
  split; [ | split; [ | split; [ | split; [ | split; [ | split ] ] ] ] ].
  - rewrite Hb; unfold Ball_new; rewrite Ball_reset_fst; cbn [brect].
    unfold_rect; unfold_consts.
    change (800 / 2) with 400; change (600 / 2) with 300; f_equal; lia.
  - rewrite Hb; unfold Ball_new; rewrite Ball_reset_fst; apply abs_7_sign.
  - rewrite Hb; unfold Ball_new; rewrite Ball_reset_fst; apply abs_7_sign.
  - reflexivity.
  - reflexivity.
  - intros s Hs; rewrite Hb; unfold Ball_new; rewrite Ball_reset_fst, Hs.
    split; reflexivity.
  - intros s Hs; unfold start, Paddle_new; cbn; rewrite Hs; split; reflexivity.
Qed.

Lemma start_of_game_witness :
  start (mkAssets None None None) all_minus = initial all_minus /\
  Rect.w (brect (ball (start (mkAssets None None (Some (mkSurface 32 32 Picture)))
                             all_minus))) = 32.
Proof.
  split.
  - destruct (start_of_game (mkAssets None None None) all_minus)
      as (_ & Hnone & _).
    apply Hnone; reflexivity.
  - destruct (start_of_game (mkAssets None None (Some (mkSurface 32 32 Picture)))
                all_minus) as (_ & _ & _ & _ & _ & _ & _ & _ & _ & _ & _ & Hb & _).
    apply (Hb (mkSurface 32 32 Picture)); reflexivity.
Defined.

(** * Properties of the two-agent session *)

Lemma string_app_assoc (a b c : string) :
  ((a ++ b) ++ c = a ++ (b ++ c))%string.
Proof.
  induction a as [ | ch a IH ]; cbn; [ reflexivity | rewrite IH; reflexivity ].
Qed.

Lemma string_app_nil_r (a : string) : (a ++ "" = a)%string.
Proof.
  induction a as [ | ch a IH ]; cbn; [ reflexivity | rewrite IH; reflexivity ].
Qed.

Lemma session_round_extends (w : World) (i : nat) (s s' : Session) :
  session_round w i s = inr s' ->
  exists t, conversation_history s' = (conversation_history s ++ t)%string.
Proof.
  unfold session_round.
  destruct (invoke w i _) as [ e | m ]; [ discriminate | ].
  destruct (content m) as [ text | ]; [ | discriminate ].
  intros H; injection H as <-; cbn [conversation_history].
  eexists; reflexivity.
Qed.

Lemma session_rounds_extends (w : World) (n : nat) :
  forall i s s',
    session_rounds w n i s = inr s' ->
    exists t, conversation_history s' = (conversation_history s ++ t)%string.
Proof.
  induction n as [ | n IH ]; intros i s s'; cbn [session_rounds].
  - intros H; injection H as <-; exists ""%string.
    symmetry; apply string_app_nil_r.
  - destruct (session_round w i s) as [ e | s1 ] eqn:H1; [ discriminate | ].
    intros H; destruct (IH _ _ _ H) as [t2 Ht2].
    destruct (session_round_extends _ _ _ _ H1) as [t1 Ht1].
    exists (t1 ++ t2)%string; rewrite Ht2, Ht1; apply string_app_assoc.
Qed.

(** Running [n + m] rounds is running [n] rounds and then [m] more. *)
Lemma session_rounds_add (w : World) (n m : nat) :
  forall i s,
    session_rounds w (n + m) i s =
      match session_rounds w n i s with
      | inl e => inl e
      | inr s' => session_rounds w m (i + n) s'
      end.
Proof.
  induction n as [ | n IH ]; intros i s; cbn [session_rounds Nat.add].
  - rewrite Nat.add_0_r; reflexivity.
  - destruct (session_round w i s) as [ e | s1 ]; [ reflexivity | ].
    rewrite IH; replace (S i + n)%nat with (i + S n)%nat by lia; reflexivity.
Qed.

(** X19.  With [rounds] zero or negative the session calls neither service
    and returns the line with the initial query, whatever the services
    would have answered. *)
Theorem session_without_rounds (w : World) (q : string) (rounds : Z) :
  rounds <= 0 ->
  collaborative_session w q rounds = inr ("Initial query: " ++ q)%string.
Proof.
  intros H; unfold collaborative_session.
  replace (Z.to_nat rounds) with 0%nat by lia; reflexivity.
Qed.

Lemma session_without_rounds_witness :
  collaborative_session chain_fails_second "nlp" (-2) =
    inr "Initial query: nlp"%string.
Proof.
  apply (session_without_rounds chain_fails_second "nlp" (-2)).
  vm_compute; discriminate.
Defined.

(** X20.  The history only grows: a session that completes [n2] rounds
    also completes any smaller number [n1] of rounds with the same services,
    its history begins with the history after [n1] rounds, and every
    history begins with the line of the initial query. *)
Theorem session_history_grows (w : World) (q : string) (n1 n2 : Z)
    (h2 : string) :
  n1 <= n2 ->
  collaborative_session w q n2 = inr h2 ->
  exists h1 t t0,
    collaborative_session w q n1 = inr h1 /\
    h2 = (h1 ++ t)%string /\
    h1 = (("Initial query: " ++ q) ++ t0)%string.
Proof.
  intros Hle; unfold collaborative_session.
  replace (Z.to_nat n2) with (Z.to_nat n1 + (Z.to_nat n2 - Z.to_nat n1))%nat
    by lia.
  rewrite session_rounds_add.
  destruct (session_rounds w (Z.to_nat n1) 0 _) as [ e | s1 ] eqn:H1;
    [ discriminate | ].
  destruct (session_rounds w _ _ s1) as [ e | s2 ] eqn:H2; [ discriminate | ].
  intros H; injection H as <-.
  destruct (session_rounds_extends _ _ _ _ _ H2) as [t Ht].
  destruct (session_rounds_extends _ _ _ _ _ H1) as [t0 Ht0].
  exists (conversation_history s1), t, t0; auto.
Qed.

Lemma session_history_grows_witness :
  exists h1 t t0,
    collaborative_session endpoint_down "nlp" 1 = inr h1 /\
    (match collaborative_session endpoint_down "nlp" 3 with
     | inr h => h
     | inl e => e
     end) = (h1 ++ t)%string /\
    h1 = (("Initial query: " ++ "nlp") ++ t0)%string.
Proof.
  destruct (collaborative_session endpoint_down "nlp" 3) as [ e | h ] eqn:H;
    [ vm_compute in H; discriminate H | ].
  apply (session_history_grows endpoint_down "nlp" 1 3 h);
    [ vm_compute; discriminate | exact H ].
Defined.

(** X21.  An exception of the reasoning chain ends the session for good:
    a session that is aborted within [n1] rounds is aborted with the same
    exception for every larger number of rounds, and no history is
    returned. *)
Theorem session_abort_is_final (w : World) (q : string) (n1 n2 : Z)
    (e : string) :
  n1 <= n2 ->
  collaborative_session w q n1 = inl e ->
  collaborative_session w q n2 = inl e.
Proof.
  intros Hle; unfold collaborative_session.
  replace (Z.to_nat n2) with (Z.to_nat n1 + (Z.to_nat n2 - Z.to_nat n1))%nat
    by lia.
  rewrite session_rounds_add.
  destruct (session_rounds w (Z.to_nat n1) 0 _) as [ e1 | s1 ];
    [ intros H; exact H | discriminate ].
Qed.

Lemma session_abort_is_final_witness :
  collaborative_session chain_fails_second "nlp" 5 = inl "rate limit"%string.
Proof.
  apply (session_abort_is_final chain_fails_second "nlp" 2 5);
    [ vm_compute; discriminate | vm_compute; reflexivity ].
Defined.




(** * The HUD line *)

Lemma string_length_app (a b : string) :
  String.length (a ++ b) = (String.length a + String.length b)%nat.
Proof.
  induction a as [ | ch a IH ]; cbn; [ reflexivity | rewrite IH; reflexivity ].
Qed.

Lemma py_int_str_digit (z : Z) :
  0 <= z <= 3 ->
  In (py_int_str z) ["0"; "1"; "2"; "3"]%string /\
  String.length (py_int_str z) = 1%nat.
Proof.
  intros H.
  assert (Hz : z = 0 \/ z = 1 \/ z = 2 \/ z = 3) by lia.
  destruct Hz as [-> | [-> | [-> | ->]]]; cbn; auto 6.
Qed.

(** X23.  In every state the program reaches the HUD shows four single
    digits between 0 and 3, never a minus sign, and the line has always the
    same length of 51 characters. *)
Theorem hud_text_single_digits (g : Game) :
  reachable g ->
  In (py_int_str (player_score g)) ["0"; "1"; "2"; "3"]%string /\
  In (py_int_str (player_lives g)) ["0"; "1"; "2"; "3"]%string /\
  In (py_int_str (comp_score g)) ["0"; "1"; "2"; "3"]%string /\
  In (py_int_str (comp_lives g)) ["0"; "1"; "2"; "3"]%string /\
  String.length (hud_text g) = 51%nat.
Proof.
  intros Hg.
  destruct (reachable_lives g Hg) as (Hp & Hc & _).
  destruct (reachable_lives_le g Hg) as (Hp3 & Hc3).
  destruct (reachable_sums g Hg) as (Hs1 & Hs2).
  destruct (py_int_str_digit (player_score g)) as [Ha1 Ha2]; [ lia | ].
  destruct (py_int_str_digit (player_lives g)) as [Hb1 Hb2]; [ lia | ].
  destruct (py_int_str_digit (comp_score g)) as [Hc1 Hc2]; [ lia | ].
  destruct (py_int_str_digit (comp_lives g)) as [Hd1 Hd2]; [ lia | ].
  repeat (split; [ assumption | ]).
  unfold hud_text; rewrite !string_length_app, Ha2, Hb2, Hc2, Hd2; reflexivity.
Qed.

Lemma hud_text_single_digits_witness :
  String.length (hud_text (run (repeat idle 100) (initial all_minus))) = 51%nat /\
  hud_text (run (repeat idle 100) (initial all_minus)) =
    "Player: 0   Lives: 2    |    Computer: 1   Lives: 3"%string.
Proof.
  split; [ | vm_compute; reflexivity ].
  apply (hud_text_single_digits (run (repeat idle 100) (initial all_minus))).
  apply reachable_run, reach_initial.
Defined.
